(** * redis-rate-limiter: fixed-window and sliding-window strategies

    A shallow embedding of [counterStrategy.Run] (counter.go) and
    [sortedSetCounter.Run] (sorted_set_counter.go) over an executable model
    of the Redis commands they issue, followed by the properties of the
    two strategies. *)

From Stdlib Require Import ZArith Lia List Bool Ascii.
From stdpp Require Import gmap strings list fin_maps pretty.
Import ListNotations.

Local Open Scope Z_scope.

(** ** Go values *)

Module Go.

(** [time.Duration]: a signed 64-bit count of nanoseconds. *)
Definition Duration := Z.

(** [time.Time]: an instant, as nanoseconds since the Unix epoch. *)
Definition Time := Z.

Definition Second : Duration := 1000000000.
Definition Minute : Duration := 60 * Second.

Definition wrap_int64 (z : Z) : Z :=
  (z + 2 ^ 63) mod 2 ^ 64 - 2 ^ 63.

(** [uint64(x)] for an [int64] x. *)
Definition to_uint64 (z : Z) : Z := z mod 2 ^ 64.

(** Unary minus on a [time.Duration] wraps as every int64 negation. *)
Definition neg (d : Duration) : Duration := wrap_int64 (- d).

(** [t.Add(d)]. *)
Definition Add (t : Time) (d : Duration) : Time := t + d.

(** [t.UnixMilli()]: milliseconds since the epoch, rounded down. *)
Definition UnixMilli (t : Time) : Z := t / 1000000.

End Go.

(** ** limiter.go *)

Record Request := mkRequest {
  Key : string;
  Limit : Z;              (* uint64 *)
  Duration : Go.Duration
}.

Inductive State := Deny | Allow.

Record Result := mkResult {
  RState : State;
  TotalRequests : Z;      (* uint64 *)
  ExpiresAt : Go.Time
}.

(** ** The shared store

    The strategies talk to Redis through go-redis.  The store is modelled
    by the commands the two strategies use: INCR, TTL, EXPIRE, ZCOUNT,
    ZREMRANGEBYSCORE and ZADD, with lazy key expiry against the server's
    own clock (milliseconds). *)

Module Redis.

(** A sorted set keeps one score per member; the strategies only ever
    use integral millisecond scores. *)
Definition zset := list (string * Z).

Inductive rvalue :=
| VInt (n : Z)
| VZSet (zs : zset).

Record entry := mkEntry {
  e_val : rvalue;
  e_exp : option Z      (* absolute deadline on the server clock, ms *)
}.

Record store := mkStore {
  db : gmap string entry;
  clock : Z             (* server clock, ms *)
}.

Definition empty : store := mkStore ∅ 0.

(** [FastForward] of the test server: the clock moves, the keys stay. *)
Definition fast_forward (ms : Z) (s : store) : store :=
  mkStore (db s) (clock s + ms).

Definition expired (now : Z) (e : entry) : bool :=
  match e_exp e with
  | Some t => t <=? now
  | None => false
  end.

(** The entry a command sees: an expired key is as good as absent. *)
Definition live (k : string) (s : store) : option entry :=
  match db s !! k with
  | Some e => if expired (clock s) e then None else Some e
  | None => None
  end.

Definition put (k : string) (e : entry) (s : store) : store :=
  mkStore (<[k := e]> (db s)) (clock s).

Definition del (k : string) (s : store) : store :=
  mkStore (delete k (db s)) (clock s).

(** Score bounds of ZCOUNT and ZREMRANGEBYSCORE.  A plain number is an
    inclusive bound. *)
Inductive bound :=
| NegInf
| PosInf
| Incl (z : Z).

Definition ge_bound (lo : bound) (x : Z) : bool :=
  match lo with
  | NegInf => true
  | PosInf => false
  | Incl z => z <=? x
  end.

Definition le_bound (x : Z) (hi : bound) : bool :=
  match hi with
  | NegInf => false
  | PosInf => true
  | Incl z => x <=? z
  end.

Definition in_range (lo hi : bound) (x : Z) : bool :=
  ge_bound lo x && le_bound x hi.

Definition zcount_in (lo hi : bound) (zs : zset) : Z :=
  Z.of_nat (length (List.filter (fun p => in_range lo hi (snd p)) zs)).

Definition zkeep (lo hi : bound) (zs : zset) : zset :=
  List.filter (fun p => negb (in_range lo hi (snd p))) zs.

Definition zmember (m : string) (zs : zset) : bool :=
  existsb (fun p => String.eqb (fst p) m) zs.

Fixpoint zupdate (m : string) (sc : Z) (zs : zset) : zset :=
  match zs with
  | [] => []
  | (m', sc') :: rest =>
      if String.eqb m' m then (m', sc) :: rest
      else (m', sc') :: zupdate m sc rest
  end.

Definition zinsert (m : string) (sc : Z) (zs : zset) : zset :=
  if zmember m zs then zupdate m sc zs else zs ++ [(m, sc)].

Definition max_int64 : Z := 2 ^ 63 - 1.

(** INCR: a missing key counts from zero and gets no expiry; an existing
    one keeps its expiry.  [None] is an error reply. *)
Definition incr (k : string) (s : store) : store * option Z :=
  match live k s with
  | None => (put k (mkEntry (VInt 1) None) s, Some 1)
  | Some (mkEntry (VInt n) exp) =>
      if n <? max_int64
      then (put k (mkEntry (VInt (n + 1)) exp) s, Some (n + 1))
      else (s, None)
  | Some (mkEntry (VZSet _) _) => (s, None)
  end.

(** TTL as go-redis hands it out: -2 (no such key) and -1 (no expiry) are
    passed on as they are, a number of seconds is scaled to a Duration. *)
Definition ttl (k : string) (s : store) : store * option Z :=
  match live k s with
  | None => (s, Some (-2))
  | Some e =>
      match e_exp e with
      | None => (s, Some (-1))
      | Some t => (s, Some ((t - clock s + 500) / 1000 * Go.Second))
      end
  end.

(** The seconds go-redis sends for a Duration. *)
Definition formatSec (d : Go.Duration) : Z :=
  if (0 <? d) && (d <? Go.Second) then 1 else Z.quot d Go.Second.

(** EXPIRE: a deadline that is not in the future deletes the key. *)
Definition expire (k : string) (d : Go.Duration) (s : store) : store * option Z :=
  match live k s with
  | None => (s, Some 0)
  | Some e =>
      let secs := formatSec d in
      if secs <=? 0 then (del k s, Some 1)
      else (put k (mkEntry (e_val e) (Some (clock s + secs * 1000))) s, Some 1)
  end.

Definition zcount (k : string) (lo hi : bound) (s : store) : store * option Z :=
  match live k s with
  | None => (s, Some 0)
  | Some (mkEntry (VZSet zs) _) => (s, Some (zcount_in lo hi zs))
  | Some (mkEntry (VInt _) _) => (s, None)
  end.

(** ZREMRANGEBYSCORE: both bounds inclusive; a set emptied by the removal
    is deleted with its key. *)
Definition zremrangebyscore (k : string) (lo hi : bound) (s : store)
  : store * option Z :=
  match live k s with
  | None => (s, Some 0)
  | Some (mkEntry (VZSet zs) exp) =>
      let kept := zkeep lo hi zs in
      let removed := zcount_in lo hi zs in
      match kept with
      | [] => (del k s, Some removed)
      | _ => (put k (mkEntry (VZSet kept) exp) s, Some removed)
      end
  | Some (mkEntry (VInt _) _) => (s, None)
  end.

Definition zadd (k : string) (sc : Z) (m : string) (s : store) : store * option Z :=
  match live k s with
  | None => (put k (mkEntry (VZSet [(m, sc)]) None) s, Some 1)
  | Some (mkEntry (VZSet zs) exp) =>
      (put k (mkEntry (VZSet (zinsert m sc zs)) exp) s,
       Some (if zmember m zs then 0 else 1))
  | Some (mkEntry (VInt _) _) => (s, None)
  end.

Inductive command :=
| Incr (k : string)
| TTL (k : string)
| Expire (k : string) (d : Go.Duration)
| ZCount (k : string) (lo hi : bound)
| ZRemRangeByScore (k : string) (lo hi : bound)
| ZAdd (k : string) (score : Z) (member : string).

Definition apply (c : command) (s : store) : store * option Z :=
  match c with
  | Incr k => incr k s
  | TTL k => ttl k s
  | Expire k d => expire k d s
  | ZCount k lo hi => zcount k lo hi s
  | ZRemRangeByScore k lo hi => zremrangebyscore k lo hi s
  | ZAdd k sc m => zadd k sc m s
  end.

Definition is_write (c : command) : bool :=
  match c with
  | Incr _ | Expire _ _ | ZRemRangeByScore _ _ _ | ZAdd _ _ _ => true
  | TTL _ | ZCount _ _ _ => false
  end.

Definition is_expire (c : command) : bool :=
  match c with
  | Expire _ _ => true
  | _ => false
  end.

End Redis.

(** ** The client side: round trips, faults and the command log *)

Module Client.

Import Redis.

(** One round trip as the client saw it: the commands sent and the reply
    to each ([None] is an error reply), and for a pipeline the error of
    [Exec] itself. *)
Inductive roundtrip :=
| Single (c : command) (r : option Z)
| Batch (err : bool) (crs : list (command * option Z)).

Record world := mkWorld {
  w_store : store;
  w_log : list roundtrip      (* oldest first *)
}.

Definition fresh (s : store) : world := mkWorld s [].

(** Store-threading computations. *)
Definition M (A : Type) : Type := world → A * world.

Global Instance M_ret : MRet M := λ A a w, (a, w).
Global Instance M_bind : MBind M := λ A B f m w,
  let '(a, w') := m w in f a w'.

(** One command against the store.  A command that fails on the way
    leaves the store alone and replies with an error. *)
Definition attempt (fail : bool) (c : command) (s : store) : store * option Z :=
  if fail then (s, None) else apply c s.

Fixpoint attempt_all (cs : list (bool * command)) (s : store)
  : store * list (option Z) :=
  match cs with
  | [] => (s, [])
  | (fail, c) :: rest =>
      let '(s1, r) := attempt fail c s in
      let '(s2, rs) := attempt_all rest s1 in
      (s2, r :: rs)
  end.

(** A command sent on its own, as [client.Expire] or [client.ZCount]. *)
Definition call (fail : bool) (c : command) : M (option Z) := λ w,
  let '(s', r) := attempt fail c (w_store w) in
  (r, mkWorld s' (w_log w ++ [Single c r])).

(** [Pipeline] ... [Exec]: the queued commands travel together and are
    applied in order, without any transaction around them.  The error of
    [Exec] and the error of each command are kept apart, the way the
    strategies inspect them.  go-redis ties the two, [Exec] returning the
    error of the first failed command: [View.exec_reports] below tells the
    round trips it can produce among the ones allowed here. *)
Definition exec (fail : bool) (cs : list (bool * command))
  : M (bool * list (option Z)) := λ w,
  let '(s', rs) := attempt_all cs (w_store w) in
  ((fail, rs), mkWorld s' (w_log w ++ [Batch fail (zip (cs.*2) rs)])).

Definition reply (i : nat) (rs : list (option Z)) : option Z :=
  match rs !! i with
  | Some r => r
  | None => None
  end.

Definition commands (rt : roundtrip) : list command :=
  match rt with
  | Single c _ => [c]
  | Batch _ crs => crs.*1
  end.

(** Every command sent so far, in order. *)
Definition issued (w : world) : list command :=
  concat (commands <$> w_log w).

End Client.

(** ** Errors

    Every error a strategy returns is a store error wrapped with a message
    that names the step and the key. *)

Inductive failure :=
| FailedExecuteIncrement
| FailedIncrement
| FailedSetExpiration
| FailedSortedSetPipeline
| FailedRemoveItems
| FailedAddItem
| FailedCountItems.

Inductive error :=
| StoreError (what : failure) (key : string).

(** The pair a Go [Run] returns, a Result pointer and an error, with
    [None] for nil. *)
Definition outcome : Type := option Result * option error.

Definition ok (res : Result) : outcome := (Some res, None).
Definition fail (what : failure) (key : string) : outcome :=
  (None, Some (StoreError what key)).

(** ** counter.go *)

Module Counter.

Import Redis Client.

Definition keyWithoutExpire : Z := -1.

Record faults := mkFaults {
  f_exec : bool;
  f_incr : bool;
  f_ttl : bool;
  f_expire : bool
}.

Definition no_faults : faults := mkFaults false false false false.

(** The tail of [Run] once the TTL in force is known. *)
Definition decide_ (now : Go.Time) (r : Request) (totalRequests : Z)
    (ttlDuration : Go.Duration) : outcome :=
  let expiresAt := Go.Add now ttlDuration in
  let requests := Go.to_uint64 totalRequests in
  if Limit r <? requests
  then ok (mkResult Deny requests expiresAt)
  else ok (mkResult Allow requests expiresAt).

Definition Run (now : Go.Time) (f : faults) (r : Request) : M outcome :=
  '(execErr, replies) ← exec (f_exec f)
      [(f_incr f, Incr (Key r)); (f_ttl f, TTL (Key r))];
  let incrResult := reply 0 replies in
  let ttlResult := reply 1 replies in
  if execErr : bool then mret (fail FailedExecuteIncrement (Key r)) else
  match incrResult with
  | None => mret (fail FailedIncrement (Key r))
  | Some totalRequests =>
      let rearm : M outcome :=
        e ← call (f_expire f) (Expire (Key r) (Duration r));
        match e with
        | None => mret (fail FailedSetExpiration (Key r))
        | Some _ => mret (decide_ now r totalRequests (Duration r))
        end in
      match ttlResult with
      | None => rearm
      | Some d =>
          if d =? keyWithoutExpire then rearm
          else mret (decide_ now r totalRequests d)
      end
  end.

End Counter.

(** ** sorted_set_counter.go *)

Module SortedSet.

Import Redis Client.

Definition sortedSetMax : bound := PosInf.
Definition sortedSetMin : bound := NegInf.

Record faults := mkFaults {
  f_pre : bool;
  f_exec : bool;
  f_rem : bool;
  f_add : bool;
  f_count : bool
}.

Definition no_faults : faults := mkFaults false false false false false.

(** [minimum.UnixMilli()], with [minimum := now.Add(-r.Duration)]: where the
    rolling window starts, in milliseconds. *)
Definition windowStart (now : Go.Time) (r : Request) : Z :=
  Go.UnixMilli (Go.Add now (Go.neg (Duration r))).

(** The three commands queued on the pipeline.  Scores travel as decimal
    strings and as float64; both are exact for millisecond timestamps. *)
Definition batch (now : Go.Time) (item : string) (r : Request) : list command :=
  [ ZRemRangeByScore (Key r) (Incl 0) (Incl (windowStart now r));
    ZAdd (Key r) (Go.UnixMilli now) item;
    ZCount (Key r) sortedSetMin sortedSetMax ].

(** The tail of [Run] once the pipeline has answered. *)
Definition decide_ (now : Go.Time) (r : Request) (totalRequests : Z) : outcome :=
  let expiresAt := Go.Add now (Duration r) in
  let requests := Go.to_uint64 totalRequests in
  if Limit r <? requests
  then ok (mkResult Deny requests expiresAt)
  else ok (mkResult Allow requests expiresAt).

(** The second half of [Run]: prune, insert, count. *)
Definition mutate (now : Go.Time) (item : string) (f : faults) (r : Request)
  : M outcome :=
  '(execErr, replies) ← exec (f_exec f)
      (zip [f_rem f; f_add f; f_count f] (batch now item r));
  let removeByScore := reply 0 replies in
  let add := reply 1 replies in
  let count := reply 2 replies in
  if execErr : bool then mret (fail FailedSortedSetPipeline (Key r)) else
  match removeByScore with
  | None => mret (fail FailedRemoveItems (Key r))
  | Some _ =>
      match add with
      | None => mret (fail FailedAddItem (Key r))
      | Some _ =>
          match count with
          | None => mret (fail FailedCountItems (Key r))
          | Some totalRequests => mret (decide_ now r totalRequests)
          end
      end
  end.

(** The first count, over the window that is still rolling. *)
Definition precheck (now : Go.Time) (r : Request) : command :=
  ZCount (Key r) (Incl (windowStart now r)) sortedSetMax.

(** [item] is the UUID drawn for this request.  A failed first count is
    not an error of [Run]: the request goes on to the pipeline. *)
Definition Run (now : Go.Time) (item : string) (f : faults) (r : Request)
  : M outcome :=
  let expiresAt := Go.Add now (Duration r) in
  result ← call (f_pre f) (precheck now r);
  match result with
  | Some n =>
      if Limit r <=? Go.to_uint64 n
      then mret (ok (mkResult Deny (Go.to_uint64 n) expiresAt))
      else mutate now item f r
  | None => mutate now item f r
  end.

End SortedSet.

(** ** The Strategy interface

    Both implementations answer [Run].  A value of [Strategy] stands for
    one of the two structs together with what a single call draws from the
    outside: the faults of the network and, for the sorted set, the UUID. *)

Inductive Strategy :=
| counterStrategy (f : Counter.faults)
| sortedSetCounter (item : string) (f : SortedSet.faults).

Definition Run (st : Strategy) (now : Go.Time) (r : Request) : Client.M outcome :=
  match st with
  | counterStrategy f => Counter.Run now f r
  | sortedSetCounter item f => SortedSet.Run now item f r
  end.

(** ** Views of the store and of the log *)

Module View.

Import Redis Client.

(** The members stored under a key, if it holds a sorted set. *)
Definition zset_of (k : string) (s : store) : zset :=
  match live k s with
  | Some (mkEntry (VZSet zs) _) => zs
  | _ => []
  end.

Definition zcard (k : string) (s : store) : Z :=
  Z.of_nat (length (zset_of k s)).

(** The number stored under a key, if it holds a counter. *)
Definition counter_of (k : string) (s : store) : option Z :=
  match live k s with
  | Some (mkEntry (VInt n) _) => Some n
  | _ => None
  end.


Definition failed (r : option Z) : bool :=
  match r with
  | None => true
  | Some _ => false
  end.

(** Some command of the round trip, or the round trip itself, failed. *)
Definition any_failure (rt : roundtrip) : bool :=
  match rt with
  | Single _ r => failed r
  | Batch err crs => err || existsb (λ cr, failed cr.2) crs
  end.

(** [Exec] of go-redis returns the error of the first command of the
    pipeline that failed: a pipeline with a failed command does not come
    back without an error.  [Client.exec] allows any error of [Exec] with
    any replies; this tells the round trips go-redis can produce. *)
Definition exec_reports (rt : roundtrip) : bool :=
  match rt with
  | Single _ _ => true
  | Batch err crs => implb (existsb (λ cr, failed cr.2) crs) err
  end.

(** The failures that end a call: a failed pipeline, a failed command of
    a pipeline, and a failed write sent on its own.  What is left is a
    failed read sent on its own, the first count of the sliding window. *)
Definition aborting (rt : roundtrip) : bool :=
  match rt with
  | Single c r => is_write c && failed r
  | Batch err crs => err || existsb (λ cr, failed cr.2) crs
  end.

(** What a key may hold for the counts to fit the integers of the
    client: nothing, a counter that is not negative, or a sorted set of
    fewer than 2^63 members. *)
Definition fits_int64 (k : string) (s : store) : Prop :=
  match live k s with
  | None => True
  | Some (mkEntry (VInt n) _) => 0 <= n
  | Some (mkEntry (VZSet zs) _) => Z.of_nat (length zs) < max_int64
  end.

(** No member under the key has a score from before the epoch. *)
Definition after_epoch (k : string) (s : store) : Prop :=
  Forall (λ p, 0 <= p.2) (zset_of k s).

End View.

(** ** Scripted runs *)

Module Script.

Import Redis Client.

Inductive kind := FixedWindow | SlidingWindow.

(** One scripted call: how far the store's clock moved since the last
    call (ms), what the injected clock reads, and the request. *)
Record step := mkStep {
  advance : Z;
  at_time : Go.Time;
  request : Request
}.

(** The strategy value of the i-th call of a run without faults;
    [uuid i] is the token that call would draw. *)
Definition strategy_at (k : kind) (uuid : nat → string) (i : nat) : Strategy :=
  match k with
  | FixedWindow => counterStrategy Counter.no_faults
  | SlidingWindow => sortedSetCounter (uuid i) SortedSet.no_faults
  end.

Fixpoint play (k : kind) (uuid : nat → string) (i : nat)
    (script : list step) (s : store) : list outcome * store :=
  match script with
  | [] => ([], s)
  | st :: rest =>
      let '(out, w) :=
        Run (strategy_at k uuid i) (at_time st) (request st)
            (fresh (fast_forward (advance st) s)) in
      let '(outs, s') := play k uuid (S i) rest (w_store w) in
      (out :: outs, s')
  end.

(** The same request sent over and over. *)
Definition repeat_request (r : Request) (sched : list (Z * Go.Time)) : list step :=
  (λ p, mkStep p.1 p.2 r) <$> sched.

End Script.

(** ** Stores that differ in their tokens only *)

Module Alike.

Import Redis.

(** Two values agree up to the names of the members of a sorted set. *)
Definition value_alike (v1 v2 : rvalue) : Prop :=
  match v1, v2 with
  | VInt a, VInt b => a = b
  | VZSet z1, VZSet z2 => z1.*2 = z2.*2
  | _, _ => False
  end.

Definition entry_alike (e1 e2 : entry) : Prop :=
  value_alike (e_val e1) (e_val e2) ∧ e_exp e1 = e_exp e2.

Definition alike (s1 s2 : store) : Prop :=
  clock s1 = clock s2 ∧
  ∀ k, option_Forall2 entry_alike (db s1 !! k) (db s2 !! k).

Definition members (e : entry) : list string :=
  match e_val e with
  | VZSet zs => zs.*1
  | VInt _ => []
  end.

(** Every member in the store is one of the first [i] tokens drawn. *)
Definition members_from (uuid : nat → string) (i : nat) (s : store) : Prop :=
  ∀ k e m, db s !! k = Some e → m ∈ members e → ∃ j, (j < i)%nat ∧ m = uuid j.

End Alike.

(** ** Sample data, after the tests of the repository *)

Module Sample.

Import Redis.

(** 2020-03-25 10:15:30 UTC. *)
Definition t0 : Go.Time := 1585131330 * Go.Second.

Definition t0_ms : Z := Go.UnixMilli t0.

Definition some_user : Request := mkRequest "some-user" 100 Go.Minute.

Definition at_most (limit : Z) : Request := mkRequest "some-user" limit Go.Minute.

(** A store whose clock agrees with [t0]. *)
Definition store0 : store := fast_forward (Go.UnixMilli t0) Redis.empty.

(** One request on record, made [ago] milliseconds before [t0]. *)
Definition one_entry (ago : Z) : store :=
  put "some-user" (mkEntry (VZSet [("first", Go.UnixMilli t0 - ago)]) None) store0.

Definition precheck_lost : SortedSet.faults :=
  SortedSet.mkFaults true false false false false.

(** The TTL read of the fixed-window pipeline is lost, and [Exec] says so. *)
Definition ttl_lost : Counter.faults :=
  Counter.mkFaults true false true false.

(** Two runs of tokens. *)
Definition tokens_a (i : nat) : string := nth i ["a1"; "a2"; "a3"; "a4"] "".
Definition tokens_b (i : nat) : string := nth i ["b1"; "b2"; "b3"; "b4"] "".

(** Three calls one second apart, against a limit of two. *)
Definition three_calls : list Script.step :=
  Script.repeat_request (at_most 2)
    [(t0_ms, t0); (1000, t0 + Go.Second); (1000, t0 + 2 * Go.Second)].

End Sample.

(** ** The runs of sorted_set_counter_test.go *)

Module Tests.

(** The token of the i-th call. *)
Definition uuid (i : nat) : string := pretty i.

(** [runs] calls of the same request from 2020-03-25 10:15:30 on; after
    each call the clock of the test and the clock of the store move by
    [advance]. *)
Definition script (runs : nat) (advance : Go.Duration) : list Script.step :=
  (λ i : nat,
     Script.mkStep (match i with O => 0 | S _ => advance / 1000000 end)
                   (Sample.t0 + Z.of_nat i * advance)
                   Sample.some_user) <$> seq 0 runs.

Definition lastResult (k : Script.kind) (runs : nat) (advance : Go.Duration)
  : option outcome :=
  last (Script.play k uuid 0 (script runs advance) Redis.empty).1.

End Tests.

(** ** The paths through the two calls *)

Import Redis Client View.

(** The shape of every fixed-window call. *)
Inductive counter_run (now : Go.Time) (f : Counter.faults) (r : Request)
    (w : world) : outcome → world → Prop :=
| CExecFailed s1 ri s2 rt :
    attempt (Counter.f_incr f) (Incr (Key r)) (w_store w) = (s1, ri) →
    attempt (Counter.f_ttl f) (TTL (Key r)) s1 = (s2, rt) →
    Counter.f_exec f = true →
    counter_run now f r w (fail FailedExecuteIncrement (Key r))
      (mkWorld s2 (w_log w ++ [Batch true [(Incr (Key r), ri); (TTL (Key r), rt)]]))
| CIncrFailed s1 s2 rt :
    attempt (Counter.f_incr f) (Incr (Key r)) (w_store w) = (s1, None) →
    attempt (Counter.f_ttl f) (TTL (Key r)) s1 = (s2, rt) →
    Counter.f_exec f = false →
    counter_run now f r w (fail FailedIncrement (Key r))
      (mkWorld s2 (w_log w ++ [Batch false [(Incr (Key r), None); (TTL (Key r), rt)]]))
| CKept s1 n s2 d :
    attempt (Counter.f_incr f) (Incr (Key r)) (w_store w) = (s1, Some n) →
    attempt (Counter.f_ttl f) (TTL (Key r)) s1 = (s2, Some d) →
    Counter.f_exec f = false →
    d ≠ Counter.keyWithoutExpire →
    counter_run now f r w (Counter.decide_ now r n d)
      (mkWorld s2 (w_log w ++ [Batch false [(Incr (Key r), Some n); (TTL (Key r), Some d)]]))
| CRearmFailed s1 n s2 rt s3 :
    attempt (Counter.f_incr f) (Incr (Key r)) (w_store w) = (s1, Some n) →
    attempt (Counter.f_ttl f) (TTL (Key r)) s1 = (s2, rt) →
    Counter.f_exec f = false →
    rt = None ∨ rt = Some Counter.keyWithoutExpire →
    attempt (Counter.f_expire f) (Expire (Key r) (Duration r)) s2 = (s3, None) →
    counter_run now f r w (fail FailedSetExpiration (Key r))
      (mkWorld s3 (w_log w ++ [Batch false [(Incr (Key r), Some n); (TTL (Key r), rt)];
                               Single (Expire (Key r) (Duration r)) None]))
| CRearmed s1 n s2 rt s3 b :
    attempt (Counter.f_incr f) (Incr (Key r)) (w_store w) = (s1, Some n) →
    attempt (Counter.f_ttl f) (TTL (Key r)) s1 = (s2, rt) →
    Counter.f_exec f = false →
    rt = None ∨ rt = Some Counter.keyWithoutExpire →
    attempt (Counter.f_expire f) (Expire (Key r) (Duration r)) s2 = (s3, Some b) →
    counter_run now f r w (Counter.decide_ now r n (Duration r))
      (mkWorld s3 (w_log w ++ [Batch false [(Incr (Key r), Some n); (TTL (Key r), rt)];
                               Single (Expire (Key r) (Duration r)) (Some b)])).

(** What the second half of a sliding-window call returns, from the error
    of [Exec] and the three replies. *)
Definition mutate_outcome (now : Go.Time) (r : Request) (execErr : bool)
    (removeByScore add count : option Z) : outcome :=
  if execErr then fail FailedSortedSetPipeline (Key r) else
  match removeByScore, add, count with
  | None, _, _ => fail FailedRemoveItems (Key r)
  | Some _, None, _ => fail FailedAddItem (Key r)
  | Some _, Some _, None => fail FailedCountItems (Key r)
  | Some _, Some _, Some totalRequests => SortedSet.decide_ now r totalRequests
  end.

(** The shape of every sliding-window call. *)
Inductive sorted_run (now : Go.Time) (item : string) (f : SortedSet.faults)
    (r : Request) (w : world) : outcome → world → Prop :=
| SDenied s1 n :
    attempt (SortedSet.f_pre f) (SortedSet.precheck now r) (w_store w) = (s1, Some n) →
    Limit r <= Go.to_uint64 n →
    sorted_run now item f r w
      (ok (mkResult Deny (Go.to_uint64 n) (Go.Add now (Duration r))))
      (mkWorld s1 (w_log w ++ [Single (SortedSet.precheck now r) (Some n)]))
| SMutated s1 rp s2 rr s3 ra s4 rc :
    attempt (SortedSet.f_pre f) (SortedSet.precheck now r) (w_store w) = (s1, rp) →
    (∀ n, rp = Some n → Go.to_uint64 n < Limit r) →
    attempt (SortedSet.f_rem f)
      (ZRemRangeByScore (Key r) (Incl 0) (Incl (SortedSet.windowStart now r))) s1
      = (s2, rr) →
    attempt (SortedSet.f_add f) (ZAdd (Key r) (Go.UnixMilli now) item) s2 = (s3, ra) →
    attempt (SortedSet.f_count f) (ZCount (Key r) NegInf PosInf) s3 = (s4, rc) →
    sorted_run now item f r w
      (mutate_outcome now r (SortedSet.f_exec f) rr ra rc)
      (mkWorld s4
         (w_log w ++
          [Single (SortedSet.precheck now r) rp;
           Batch (SortedSet.f_exec f)
             [(ZRemRangeByScore (Key r) (Incl 0) (Incl (SortedSet.windowStart now r)), rr);
              (ZAdd (Key r) (Go.UnixMilli now) item, ra);
              (ZCount (Key r) NegInf PosInf, rc)]])).

(** ** Further views of the store *)

Module Keys.

Import Redis.

(** The key a command works on. *)
Definition key_of (c : command) : string :=
  match c with
  | Incr k | TTL k | Expire k _ | ZCount k _ _ | ZRemRangeByScore k _ _
  | ZAdd k _ _ => k
  end.

(** The key is not in the store, or its deadline has passed. *)
Definition gone (k : string) (s : store) : Prop :=
  db s !! k = None ∨
  ∃ e t, db s !! k = Some e ∧ e_exp e = Some t ∧ t < clock s.

(** A store that holds nothing but sorted sets without deadline, none of
    more than [L] members and none with a score from before the epoch. *)
Definition sets_within (L : Z) (s : store) : Prop :=
  ∀ k e, db s !! k = Some e →
    e_exp e = None ∧
    ∃ zs, e_val e = VZSet zs ∧ Z.of_nat (length zs) <= L ∧ Forall (λ p, 0 <= p.2) zs.

(** What the key holds belongs to the other strategy. *)
Definition foreign (st : Strategy) (k : string) (s : store) : Prop :=
  match st with
  | counterStrategy _ => ∃ zs exp, live k s = Some (mkEntry (VZSet zs) exp)
  | sortedSetCounter _ _ => ∃ n exp, live k s = Some (mkEntry (VInt n) exp)
  end.

End Keys.

(** ** http.go: the header extractor and the middleware *)

Module Http.

Import Redis Client.

(** What the middleware takes from the Go libraries and this development
    leaves open: how net/http canonicalises a header name, what
    [strings.TrimSpace] trims, how a time prints as RFC 3339 in its
    location, and the text of a strategy's error. *)
Class Platform := {
  CanonicalMIMEHeaderKey : string → string;
  TrimSpace : string → string;
  FormatRFC3339 : Go.Time → string;
  ErrorText : error → string
}.

(** The part of [http.Request] the extractor reads. *)
Record HttpRequest := mkHttpRequest {
  Header : gmap string (list string)
}.

Record httpHeaderExtractor := mkExtractor {
  headers : list string
}.

(** The [Extractor] interface: a key, or an error with its text. *)
Definition Extractor : Type := HttpRequest → string * option string.

(** [fmt.Sprintf] for the verb the middleware uses, %v with a string or an
    error as its argument. *)
Fixpoint Sprintf (msg : string) (args : list string) : string :=
  match msg with
  | EmptyString => EmptyString
  | String "%"%char (String "v"%char rest) =>
      match args with
      | a :: args' => a +:+ Sprintf rest args'
      | [] => "%!v(MISSING)" +:+ Sprintf rest []
      end
  | String c rest => String c (Sprintf rest args)
  end.

(** [strconv.FormatUint(n, 10)]. *)
Definition FormatUint (n : Z) : string := pretty (Z.to_N n).

Definition rateLimitingTotalRequests : string := "Rate-Limiting-Total-Requests".
Definition rateLimitingState : string := "Rate-Limiting-State".
Definition rateLimitingExpiresAt : string := "Rate-Limiting-Expires-At".

Definition stateStrings (st : State) : string :=
  match st with
  | Allow => "Allow"
  | Deny => "Deny"
  end.

Definition StatusBadRequest : Z := 400.
Definition StatusTooManyRequests : Z := 429.
Definition StatusInternalServerError : Z := 500.

(** What happens to the [http.ResponseWriter], call by call; [Next] is the
    call of the wrapped handler with the writer as it then is. *)
Inductive wcall :=
| SetHeader (name value : string)
| WriteHeader (status : Z)
| Write (body : string)
| Next.

Definition writeRespone (status : Z) (msg : string) (args : list string) : list wcall :=
  [SetHeader "Content-Type" "text/plain"; WriteHeader status; Write (Sprintf msg args)].

(** The status lines written. *)
Definition statuses (calls : list wcall) : list Z :=
  omap (λ c, match c with WriteHeader st => Some st | _ => None end) calls.

(** The value a header was last set to. *)
Definition header_set (name : string) (calls : list wcall) : option string :=
  last (omap (λ c, match c with
                   | SetHeader n v => if String.eqb n name then Some v else None
                   | _ => None
                   end) calls).

(** The middleware's configuration; [TheStrategy] is its Strategy field. *)
Record RateLimiterConfig := mkConfig {
  TheExtractor : Extractor;
  TheStrategy : Strategy;
  Expiration : Go.Duration;
  MaxRequests : Z
}.

Section WithPlatform.

Context `{Platform}.

(** [h.Get(key)]: the first value under the canonical name, or nothing. *)
Definition Get (h : gmap string (list string)) (key : string) : string :=
  match h !! CanonicalMIMEHeaderKey key with
  | Some (v :: _) => v
  | _ => ""
  end.

(** The loop of [Extract], with the values collected so far. *)
Fixpoint collect (keys : list string) (r : HttpRequest) (values : list string)
  : string * option string :=
  match keys with
  | [] => (String.concat "-" values, None)
  | key :: rest =>
      let value := TrimSpace (Get (Header r) key) in
      if String.eqb value ""
      then ("", Some (Sprintf "the header %v must have a value set" [key]))
      else collect rest r (values ++ [value])
  end.

Definition Extract (h : httpHeaderExtractor) : Extractor :=
  λ r, collect (headers h) r [].

Definition NewHTTPHeadersExtractor (keys : list string) : Extractor :=
  Extract (mkExtractor keys).

(** [ServeHTTP]; [None] stands for the panic of a nil Result without an
    error. *)
Definition ServeHTTP (config : RateLimiterConfig) (now : Go.Time)
    (request : HttpRequest) : M (option (list wcall)) :=
  let '(key, err) := TheExtractor config request in
  match err with
  | Some e =>
      mret (Some (writeRespone StatusBadRequest
                    "failed to collect rate limiting key from request: %v" [e]))
  | None =>
      out ← Run (TheStrategy config) now
                (mkRequest key (MaxRequests config) (Expiration config));
      match out with
      | (_, Some e) =>
          mret (Some (writeRespone StatusInternalServerError
                        "failed to run rate limiting for request: %v" [ErrorText e]))
      | (None, None) => mret None
      | (Some result, None) =>
          let set :=
            [SetHeader rateLimitingTotalRequests (FormatUint (TotalRequests result));
             SetHeader rateLimitingState (stateStrings (RState result));
             SetHeader rateLimitingExpiresAt (FormatRFC3339 (ExpiresAt result))] in
          match RState result with
          | Deny =>
              mret (Some (set ++ writeRespone StatusTooManyRequests
                "you have sent too many requests to this service, slow down please" []))
          | Allow => mret (Some (set ++ [Next]))
          end
      end
  end.

End WithPlatform.

(** A platform to compute with: names and values as they come, times in
    nanoseconds. *)
Definition plain : Platform :=
  {| CanonicalMIMEHeaderKey := λ k, k;
     TrimSpace := λ v, v;
     FormatRFC3339 := λ t, pretty t;
     ErrorText := λ _, "the store failed" |}.

Definition forwardedFor : string := "X-Forwarded-For".

(** The request and the configurations of the handler's test. *)
Definition from_address (ip : string) : HttpRequest :=
  mkHttpRequest {[ forwardedFor := [ip] ]}.

Definition limit_by_address (st : Strategy) (limit : Z) : RateLimiterConfig :=
  mkConfig (NewHTTPHeadersExtractor (H := plain) [forwardedFor]) st Go.Minute limit.

(** The loop of the handler's test: [n] requests through the middleware,
    the clock of the test moving by [advance] after each, the store's
    clock standing still. *)
Fixpoint serve_n (k : Script.kind) (limit : Z) (req : HttpRequest)
    (advance : Go.Duration) (i n : nat) (s : store) : list (option (list wcall)) :=
  match n with
  | O => []
  | S n' =>
      let '(res, w) :=
        ServeHTTP (H := plain)
          (limit_by_address (Script.strategy_at k Tests.uuid i) limit)
          (Sample.t0 + Z.of_nat i * advance) req (fresh s) in
      res :: serve_n k limit req advance (S i) n' (w_store w)
  end.

End Http.

(** ** The fixed window that reads before it counts

    The other [counterStrategy.Run] of the repository: GET and TTL in one
    pipeline, EXPIRE where there is no expiry, a first comparison with the
    limit, and only then INCR. *)

Module GetFirst.

Import Redis Client.

Definition keyThatDoesNotExist : Z := -2.
Definition keyWithoutExpire : Z := -1.

(** The reply to GET: [redis.Nil] for a key that is not there, another
    error, or the number the key holds. *)
Inductive get_reply :=
| Nil
| GetError
| Value (v : Z).

Definition get (k : string) (s : store) : get_reply :=
  match live k s with
  | None => Nil
  | Some (mkEntry (VInt n) _) => Value n
  | Some (mkEntry (VZSet _) _) => GetError
  end.

Inductive reply_error := NoError | IsNil | OtherError.

(** [getResult.Uint64()]: the error of the command, or the value parsed
    as an unsigned number; what does not parse comes back as zero with an
    error. *)
Definition Uint64 (g : get_reply) : Z * reply_error :=
  match g with
  | Nil => (0, IsNil)
  | GetError => (0, OtherError)
  | Value v => if 0 <=? v then (v, NoError) else (0, OtherError)
  end.

Record faults := mkFaults {
  f_exec : bool;       (* Exec returns an error other than redis.Nil *)
  f_get : bool;
  f_ttl : bool;
  f_expire : bool;
  f_incr : bool
}.

Definition no_faults : faults := mkFaults false false false false false.

Inductive failure :=
| FailedGetAndTTLPipeline
| FailedSetExpiration
| FailedIncrement.

Definition outcome : Type := option Result * option (failure * string).

Definition ok (res : Result) : outcome := (Some res, None).
Definition fail (what : failure) (key : string) : outcome := (None, Some (what, key)).

(** The end of [Run]: INCR and the second comparison. *)
Definition increment (f : faults) (r : Request) (expiresAt : Go.Time) (s : store)
  : outcome * store :=
  let '(s', incrResult) := attempt (f_incr f) (Incr (Key r)) s in
  match incrResult with
  | None => (fail FailedIncrement (Key r), s')
  | Some n =>
      let totalRequests := Go.to_uint64 n in
      if Limit r <? totalRequests
      then (ok (mkResult Deny totalRequests expiresAt), s')
      else (ok (mkResult Allow totalRequests expiresAt), s')
  end.

(** After the pipeline and the expiry: the first comparison, on what GET
    has read. *)
Definition compare (f : faults) (r : Request) (getResult : get_reply)
    (expiresAt : Go.Time) (s : store) : outcome * store :=
  let '(total, err) := Uint64 getResult in
  match err with
  | IsNil => increment f r expiresAt s
  | _ =>
      if Limit r <=? total
      then (ok (mkResult Deny total expiresAt), s)
      else increment f r expiresAt s
  end.

Definition Run (now : Go.Time) (f : faults) (r : Request) (s : store)
  : outcome * store :=
  let getResult := if f_get f then GetError else get (Key r) s in
  let '(s1, ttlResult) := attempt (f_ttl f) (TTL (Key r)) s in
  if f_exec f then (fail FailedGetAndTTLPipeline (Key r), s1) else
  let rearm :=
    let '(s2, e) := attempt (f_expire f) (Expire (Key r) (Duration r)) s1 in
    match e with
    | None => (fail FailedSetExpiration (Key r), s2)
    | Some _ => compare f r getResult (Go.Add now (Duration r)) s2
    end in
  match ttlResult with
  | None => rearm
  | Some d =>
      if (d =? keyWithoutExpire) || (d =? keyThatDoesNotExist) then rearm
      else compare f r getResult (Go.Add now d) s1
  end.

End GetFirst.

(** * Properties *)

(** ** Unfolding the two [Run]s *)

Ltac unfold_monad :=
  unfold mbind, M_bind, mret, M_ret, exec, call in *; cbn [attempt_all] in *.

Lemma decide_counter_cases now r n d :
  (Go.to_uint64 n <= Limit r ∧
   Counter.decide_ now r n d = ok (mkResult Allow (Go.to_uint64 n) (Go.Add now d)))
  ∨ (Limit r < Go.to_uint64 n ∧
     Counter.decide_ now r n d = ok (mkResult Deny (Go.to_uint64 n) (Go.Add now d))).
Proof.
  unfold Counter.decide_.
  destruct (Limit r <? Go.to_uint64 n) eqn:E; [right | left]; split; trivial; lia.
Qed.

Lemma decide_sorted_cases now r n :
  (Go.to_uint64 n <= Limit r ∧
   SortedSet.decide_ now r n =
     ok (mkResult Allow (Go.to_uint64 n) (Go.Add now (Duration r))))
  ∨ (Limit r < Go.to_uint64 n ∧
     SortedSet.decide_ now r n =
       ok (mkResult Deny (Go.to_uint64 n) (Go.Add now (Duration r)))).
Proof.
  unfold SortedSet.decide_.
  destruct (Limit r <? Go.to_uint64 n) eqn:E; [right | left]; split; trivial; lia.
Qed.

Lemma counter_run_spec now f r w :
  counter_run now f r w (Counter.Run now f r w).1 (Counter.Run now f r w).2.
Proof.
  unfold Counter.Run. unfold_monad.
  destruct (attempt (Counter.f_incr f) (Incr (Key r)) (w_store w)) as [s1 ri] eqn:E1.
  destruct (attempt (Counter.f_ttl f) (TTL (Key r)) s1) as [s2 rt] eqn:E2.
  destruct (attempt (Counter.f_expire f) (Expire (Key r) (Duration r)) s2)
    as [s3 re] eqn:E3.
  cbn -[attempt Counter.decide_ Z.eqb].
  destruct (Counter.f_exec f) eqn:Ex.
  { cbn. eapply CExecFailed; eauto. }
  destruct ri as [n|]; cbn [fst snd].
  2:{ eapply CIncrFailed; eauto. }
  destruct rt as [d|]; [destruct (d =? Counter.keyWithoutExpire) eqn:Ed|];
    cbn -[attempt Counter.decide_ Z.eqb];
    rewrite ?E3, <- ?app_assoc; cbn [app fst snd].
  - apply Z.eqb_eq in Ed. subst d.
    destruct re; cbn [fst snd]; [eapply CRearmed | eapply CRearmFailed]; eauto.
  - apply Z.eqb_neq in Ed. eapply CKept; eauto.
  - destruct re; cbn [fst snd]; [eapply CRearmed | eapply CRearmFailed]; eauto.
Qed.

Lemma sorted_run_spec now item f r w :
  sorted_run now item f r w
    (SortedSet.Run now item f r w).1 (SortedSet.Run now item f r w).2.
Proof.
  unfold SortedSet.Run, SortedSet.mutate, SortedSet.batch,
    SortedSet.sortedSetMin, SortedSet.sortedSetMax.
  unfold_monad.
  destruct (attempt (SortedSet.f_pre f) (SortedSet.precheck now r) (w_store w))
    as [s1 rp] eqn:E0.
  destruct (attempt (SortedSet.f_rem f)
    (ZRemRangeByScore (Key r) (Incl 0) (Incl (SortedSet.windowStart now r))) s1)
    as [s2 rr] eqn:E1.
  destruct (attempt (SortedSet.f_add f) (ZAdd (Key r) (Go.UnixMilli now) item) s2)
    as [s3 ra] eqn:E2.
  destruct (attempt (SortedSet.f_count f) (ZCount (Key r) NegInf PosInf) s3)
    as [s4 rc] eqn:E3.
  assert (Hm : ∀ rp', rp' = rp → (∀ n, rp = Some n → Go.to_uint64 n < Limit r) →
    sorted_run now item f r w
      (mutate_outcome now r (SortedSet.f_exec f) rr ra rc)
      (mkWorld s4
         (w_log w ++
          [Single (SortedSet.precheck now r) rp';
           Batch (SortedSet.f_exec f)
             [(ZRemRangeByScore (Key r) (Incl 0) (Incl (SortedSet.windowStart now r)), rr);
              (ZAdd (Key r) (Go.UnixMilli now) item, ra);
              (ZCount (Key r) NegInf PosInf, rc)]]))).
  { intros rp' -> Hlt. eapply SMutated; eauto. }
  destruct rp as [n|]; [destruct (Limit r <=? Go.to_uint64 n) eqn:El|];
    cbn -[attempt SortedSet.decide_ Z.leb];
    rewrite ?E1; cbn -[attempt SortedSet.decide_ Z.leb];
    rewrite ?E2; cbn -[attempt SortedSet.decide_ Z.leb];
    rewrite ?E3, <- ?app_assoc; cbn -[attempt SortedSet.decide_ Z.leb].
  - apply Z.leb_le in El. eapply SDenied; eauto.
  - apply Z.leb_gt in El.
    specialize (Hm (Some n) eq_refl). unfold mutate_outcome in Hm.
    destruct (SortedSet.f_exec f), rr, ra, rc; cbn; apply Hm; intros ? [= <-]; lia.
  - specialize (Hm None eq_refl). unfold mutate_outcome in Hm.
    destruct (SortedSet.f_exec f), rr, ra, rc; cbn; apply Hm; discriminate.
Qed.

Lemma Counter_Run_inv now f r w out w' :
  Counter.Run now f r w = (out, w') → counter_run now f r w out w'.
Proof. intros H. pose proof (counter_run_spec now f r w) as S. by rewrite H in S. Qed.

Lemma SortedSet_Run_inv now item f r w out w' :
  SortedSet.Run now item f r w = (out, w') → sorted_run now item f r w out w'.
Proof. intros H. pose proof (sorted_run_spec now item f r w) as S. by rewrite H in S. Qed.

(** ** What a decision looks like *)

Lemma decide_counter_result now r n d res err :
  Counter.decide_ now r n d = (Some res, err) →
  err = None ∧ TotalRequests res = Go.to_uint64 n ∧ ExpiresAt res = Go.Add now d ∧
  (RState res = Allow ∧ TotalRequests res <= Limit r
   ∨ RState res = Deny ∧ Limit r < TotalRequests res).
Proof.
  destruct (decide_counter_cases now r n d) as [[Hc ->] | [Hc ->]];
    intros [= <- <-]; cbn; auto 6.
Qed.

Lemma decide_sorted_result now r n res err :
  SortedSet.decide_ now r n = (Some res, err) →
  err = None ∧ TotalRequests res = Go.to_uint64 n ∧
  ExpiresAt res = Go.Add now (Duration r) ∧
  (RState res = Allow ∧ TotalRequests res <= Limit r
   ∨ RState res = Deny ∧ Limit r < TotalRequests res).
Proof.
  destruct (decide_sorted_cases now r n) as [[Hc ->] | [Hc ->]];
    intros [= <- <-]; cbn; auto 6.
Qed.

Lemma mutate_outcome_result now r e rr ra rc res err :
  mutate_outcome now r e rr ra rc = (Some res, err) →
  e = false ∧ is_Some rr ∧ is_Some ra ∧
  ∃ m, rc = Some m ∧ SortedSet.decide_ now r m = (Some res, err).
Proof.
  unfold mutate_outcome, fail.
  destruct e, rr, ra, rc; try discriminate. eauto 8.
Qed.

(** ** C10 *)

(** C10. For both strategies, a call that returns a Result with State =
    Allow reports a TotalRequests that does not exceed the Limit of the
    request: a count above the limit only ever comes with Deny. *)
Theorem allowed_total_within_limit st now r w res err w' :
  Run st now r w = ((Some res, err), w') →
  RState res = Allow →
  TotalRequests res <= Limit r.
Proof.
  intros HR HA. destruct st as [f | item f]; cbn [Run] in HR.
  - apply Counter_Run_inv in HR. inversion HR; subst;
      match goal with
      | H : Counter.decide_ _ _ _ _ = _ |- _ =>
          apply decide_counter_result in H as (_ & _ & _ & [[_ ?] | [? _]]);
          [assumption | congruence]
      end.
  - apply SortedSet_Run_inv in HR. inversion HR; subst.
    + discriminate HA.
    + match goal with H : mutate_outcome _ _ _ _ _ _ = _ |- _ =>
        apply mutate_outcome_result in H as (_ & _ & _ & m & _ & H);
        apply decide_sorted_result in H as (_ & _ & _ & [[_ ?] | [? _]]);
        [assumption | congruence]
      end.
Qed.

Lemma allowed_total_within_limit_witness :
  TotalRequests (mkResult Allow 1 (Sample.t0 + Go.Minute)) <= Limit Sample.some_user.
Proof.
  apply (allowed_total_within_limit (counterStrategy Counter.no_faults)
           Sample.t0 Sample.some_user (fresh Sample.store0)
           (mkResult Allow 1 (Sample.t0 + Go.Minute)) None
           (Run (counterStrategy Counter.no_faults) Sample.t0 Sample.some_user
                (fresh Sample.store0)).2).
  - vm_compute. reflexivity.
  - reflexivity.
Defined.

(** ** C7 *)

(** C7, as stated, at a concrete call: the first count of a sliding-window
    call fails, and the call still returns a Result and no error. *)
Lemma precheck_failure_is_not_returned :
  let run := SortedSet.Run Sample.t0 "token" Sample.precheck_lost Sample.some_user
               (fresh Sample.store0) in
  existsb any_failure (w_log run.2) = true ∧
  run.1 = (Some (mkResult Allow 1 (Sample.t0 + Go.Minute)), None).
Proof. vm_compute. split; reflexivity. Qed.

(** The commands a call sends on its own. *)
Lemma counter_run_singles now f r w out w' c reply :
  counter_run now f r w out w' →
  In (Single c reply) (w_log w') →
  In (Single c reply) (w_log w) ∨ c = Expire (Key r) (Duration r).
Proof.
  intros S. inversion S; subst; cbn [w_log]; rewrite in_app_iff; cbn [In];
    intros [? | Hin]; auto; right;
    repeat destruct Hin as [[=] | Hin]; by subst.
Qed.

Lemma sorted_run_singles now item f r w out w' c reply :
  sorted_run now item f r w out w' →
  In (Single c reply) (w_log w') →
  In (Single c reply) (w_log w) ∨ c = SortedSet.precheck now r.
Proof.
  intros S. inversion S; subst; cbn [w_log]; rewrite in_app_iff; cbn [In];
    intros [? | Hin]; auto; right;
    repeat destruct Hin as [[=] | Hin]; by subst.
Qed.

(** C7, amended. For both strategies a call returns either a Result and no
    error or no Result and a store error that names the key, never both.
    An error is only ever returned after a failure of the pipeline, of a
    command of the pipeline or of the expiry write.  With [Exec] reporting
    the error of the first failed command, as go-redis does, every such
    failure is returned as an error, the TTL read included.  The one
    failure that does not end the call is that of a read sent on its own,
    and the only such read is the first count of the sliding window. *)
Theorem errors_returned_for_aborting_failures st now r s :
  let run := Run st now r (fresh s) in
  ((∃ res, run.1 = ok res) ∨ (∃ what, run.1 = fail what (Key r))) ∧
  (run.1.1 = None → existsb aborting (w_log run.2) = true) ∧
  (forallb exec_reports (w_log run.2) = true →
   existsb aborting (w_log run.2) = true →
   run.1.1 = None) ∧
  (∀ c reply, In (Single c reply) (w_log run.2) → is_write c = false →
     c = SortedSet.precheck now r ∧ ∃ item f, st = sortedSetCounter item f).
Proof.
  cbn zeta. rewrite !(assoc and). split.
  - rewrite <- !(assoc and). destruct st as [f | item f]; cbn [Run].
    + pose proof (counter_run_spec now f r (fresh s)) as S.
      destruct (Counter.Run now f r (fresh s)) as [out w']. cbn [fst snd] in *.
      inversion S; subst;
        repeat match goal with
               | H : _ = None ∨ _ = Some _ |- _ => destruct H; subst
               end;
        cbn [w_log fresh app existsb forallb aborting exec_reports is_write
             failed negb andb orb implb fst snd fail];
        try (split; [right; eexists; reflexivity | split; done]).
      * destruct (decide_counter_cases now r n d) as [[_ ->] | [_ ->]];
          (split; [left; eexists; reflexivity | split; [discriminate | done]]).
      * destruct (decide_counter_cases now r n (Duration r)) as [[_ ->] | [_ ->]];
          (split; [left; eexists; reflexivity | split; [discriminate | done]]).
      * destruct (decide_counter_cases now r n (Duration r)) as [[_ ->] | [_ ->]];
          (split; [left; eexists; reflexivity | split; [discriminate | done]]).
    + pose proof (sorted_run_spec now item f r (fresh s)) as S.
      destruct (SortedSet.Run now item f r (fresh s)) as [out w']. cbn [fst snd] in *.
      inversion S; subst; cbn [w_log fresh app existsb forallb aborting exec_reports
        is_write failed negb andb orb implb fst snd fail SortedSet.precheck].
      * split; [left; eexists; reflexivity | split; [discriminate | done]].
      * unfold mutate_outcome.
        destruct (SortedSet.f_exec f), rr, ra, rc; cbn;
          try (split; [right; eexists; reflexivity | split; done]);
          destruct (decide_sorted_cases now r z1) as [[_ ->] | [_ ->]];
          (split; [left; eexists; reflexivity | split; [discriminate | done]]).
  - intros c reply Hin Hw. destruct st as [f | item f]; cbn [Run] in Hin.
    + apply (counter_run_singles _ _ _ _ _ _ _ _ (counter_run_spec now f r (fresh s)))
        in Hin as [[] | ->]. discriminate Hw.
    + apply (sorted_run_singles _ _ _ _ _ _ _ _ _ (sorted_run_spec now item f r (fresh s)))
        in Hin as [[] | ->]. eauto.
Qed.

Lemma errors_returned_for_aborting_failures_witness :
  let run := Run (counterStrategy Sample.ttl_lost) Sample.t0 Sample.some_user
               (fresh Sample.store0) in
  forallb exec_reports (w_log run.2) = true ∧
  existsb aborting (w_log run.2) = true ∧
  run.1.1 = None.
Proof.
  cbn zeta. split; [vm_compute; reflexivity|]. split; [vm_compute; reflexivity|].
  apply (proj1 (proj2 (proj2 (errors_returned_for_aborting_failures
           (counterStrategy Sample.ttl_lost) Sample.t0 Sample.some_user
           Sample.store0))));
    vm_compute; reflexivity.
Defined.

(** ** The store commands *)

Lemma live_put k e s :
  live k (put k e s) = if expired (clock s) e then None else Some e.
Proof. unfold live, put. cbn. by rewrite lookup_insert_eq. Qed.

Lemma live_put_ne k k' e s : k ≠ k' → live k' (put k e s) = live k' s.
Proof. intros. unfold live, put. cbn. by rewrite lookup_insert_ne. Qed.

Lemma live_del k s : live k (del k s) = None.
Proof. unfold live, del. cbn. by rewrite lookup_delete_eq. Qed.

Lemma live_del_ne k k' s : k ≠ k' → live k' (del k s) = live k' s.
Proof. intros. unfold live, del. cbn. by rewrite lookup_delete_ne. Qed.

Lemma live_not_expired k s e : live k s = Some e → expired (clock s) e = false.
Proof.
  unfold live. destruct (db s !! k) as [e'|]; [|done].
  destruct (expired (clock s) e') eqn:E; [done|]. by intros [= <-].
Qed.

Lemma live_put_live k s v e :
  live k s = Some e → live k (put k (mkEntry v (e_exp e)) s) = Some (mkEntry v (e_exp e)).
Proof.
  intros H. rewrite live_put. apply live_not_expired in H.
  unfold expired in *. cbn. by rewrite H.
Qed.

Lemma live_put_same k s v0 v exp :
  live k s = Some (mkEntry v0 exp) →
  live k (put k (mkEntry v exp) s) = Some (mkEntry v exp).
Proof. intros H. exact (live_put_live k s v _ H). Qed.

Lemma live_put_forever k s v :
  live k (put k (mkEntry v None) s) = Some (mkEntry v None).
Proof. by rewrite live_put. Qed.

(** A command that only reads, or fails on the way, leaves the store as it
    is. *)
Lemma attempt_read fl c s : is_write c = false → (attempt fl c s).1 = s.
Proof.
  unfold attempt. destruct fl; [done|]. destruct c; try discriminate; intros _; cbn.
  - unfold ttl. destruct (live k s) as [e|]; [destruct (e_exp e)|]; done.
  - unfold zcount. by destruct (live k s) as [[[n|zs] exp]|].
Qed.

Lemma attempt_failed fl c s s' : attempt fl c s = (s', None) → s' = s.
Proof.
  unfold attempt. destruct fl; [by intros [= <-]|].
  destruct c; cbn.
  - unfold incr. destruct (live k s) as [[[n|zs] exp]|]; [destruct (n <? max_int64)|..];
      by intros [= <-].
  - unfold ttl. destruct (live k s) as [e|]; [destruct (e_exp e)|]; by intros [= <-].
  - unfold expire. destruct (live k s) as [e|]; [destruct (formatSec d <=? 0)|];
      by intros [= <-].
  - unfold zcount. by destruct (live k s) as [[[n|zs] exp]|]; intros [= <-].
  - unfold zremrangebyscore.
    destruct (live k s) as [[[n|zs] exp]|]; [|destruct (zkeep lo hi zs)|];
      by intros [= <-].
  - unfold zadd. by destruct (live k s) as [[[n|zs] exp]|]; intros [= <-].
Qed.

Lemma attempt_ok fl c s s' v : attempt fl c s = (s', Some v) → apply c s = (s', Some v).
Proof. unfold attempt. by destruct fl. Qed.

(** INCR that succeeds leaves a counter under the key, with the deadline
    the key had before, if it had one. *)
Lemma incr_ok k s s' n :
  incr k s = (s', Some n) →
  clock s' = clock s ∧
  ∃ exp, live k s' = Some (mkEntry (VInt n) exp) ∧
         (live k s = None → exp = None ∧ n = 1) ∧
         (∀ e, live k s = Some e → exp = e_exp e ∧ e_val e = VInt (n - 1)
                                   ∧ n - 1 < max_int64).
Proof.
  unfold incr. destruct (live k s) as [[[m|zs] exp]|] eqn:L.
  - destruct (m <? max_int64) eqn:Hm; [|discriminate]. intros [= <- <-].
    split; [done|]. exists exp. split.
    + by apply (live_put_live k s (VInt (m + 1)) _ L).
    + split; [done|]. intros e [= <-]. cbn. apply Z.ltb_lt in Hm.
      replace (m + 1 - 1) with m by lia. done.
  - discriminate.
  - intros [= <- <-]. split; [done|]. exists None. split.
    + apply live_put_forever.
    + split; [done | discriminate].
Qed.

Lemma ttl_ok k s s' d :
  ttl k s = (s', Some d) →
  s' = s ∧
  match live k s with
  | None => d = -2
  | Some e =>
      match e_exp e with
      | None => d = -1
      | Some t => d = (t - clock s + 500) / 1000 * Go.Second ∧ clock s < t
      end
  end.
Proof.
  unfold ttl. destruct (live k s) as [e|] eqn:L.
  - pose proof (live_not_expired _ _ _ L) as X. unfold expired in X.
    destruct (e_exp e) as [t|]; intros [= <- <-]; split; try done.
    split; [done|]. apply Z.leb_gt in X. lia.
  - by intros [= <- <-].
Qed.

Lemma ttl_nonneg t c : c < t → 0 <= (t - c + 500) / 1000 * Go.Second.
Proof.
  intros. apply Z.mul_nonneg_nonneg; [|done].
  apply Z.div_pos; lia.
Qed.


(** ** C5 *)

Lemma incr_keeps_deadline fl k s s' ri :
  attempt fl (Incr k) s = (s', ri) →
  live k s' ≫= e_exp = live k s ≫= e_exp.
Proof.
  unfold attempt. destruct fl; [by intros [= <- <-]|]. cbn [apply]. unfold incr.
  destruct (live k s) as [[[m|zs] exp]|] eqn:L.
  - destruct (m <? max_int64); intros [= <- <-]; [|by rewrite L].
    by rewrite (live_put_same _ _ _ _ _ L).
  - intros [= <- <-]. by rewrite L.
  - intros [= <- <-]. by rewrite live_put_forever.
Qed.

Lemma expire_sets_deadline k d s s' b v :
  live k s = Some (mkEntry v None) →
  expire k d s = (s', Some b) →
  live k s' = if 0 <? formatSec d
              then Some (mkEntry v (Some (clock s + formatSec d * 1000)))
              else None.
Proof.
  intros L. unfold expire. rewrite L. cbn [e_val].
  destruct (Z.leb_spec (formatSec d) 0), (Z.ltb_spec 0 (formatSec d)); try lia;
    intros [= <- <-].
  - apply live_del.
  - rewrite live_put. unfold expired. cbn [e_exp].
    by destruct (Z.leb_spec (clock s + formatSec d * 1000) (clock s)); [lia|].
Qed.

(** C5, as stated, at a concrete call: the TTL read of the first call of a
    client fails.  [Exec] returns that error, [Run] returns it wrapped and
    sends no EXPIRE, and the counter the INCR has created stays without a
    deadline. *)
Lemma failed_ttl_read_sets_no_expiry :
  let run := Counter.Run Sample.t0 Sample.ttl_lost Sample.some_user
               (fresh Sample.store0) in
  w_log run.2 = [Batch true [(Incr "some-user", Some 1); (TTL "some-user", None)]] ∧
  forallb exec_reports (w_log run.2) = true ∧
  run.1 = fail FailedExecuteIncrement "some-user" ∧
  existsb is_expire (issued run.2) = false ∧
  live "some-user" (w_store run.2) = Some (mkEntry (VInt 1) None).
Proof. vm_compute. repeat split; reflexivity. Qed.

(** C5, amended. With [Exec] reporting the error of the first failed
    command, as go-redis does, every fixed-window call sends INCR and TTL
    in one pipeline, and:
    - a TTL read that fails ends the call: [Run] returns the error of the
      pipeline, sends no EXPIRE, and the deadline of the key is what it
      was, none for a key the INCR has just created;
    - a call that returns a Result has read a TTL, which is never -2 since
      the TTL is read after the increment, and is -1 exactly when the key
      was not there before the call or held a counter without a deadline;
    - on -1 [Run] sends EXPIRE with the Duration of the request, ExpiresAt
      is the current time plus that Duration, and the store holds the
      counter with a deadline of the Duration in whole seconds after its
      clock, or no longer holds the key when those seconds are not
      positive;
    - otherwise nothing more is sent, ExpiresAt is the current time plus
      the TTL read, and the store holds the counter with the deadline it
      had. *)
Theorem effective_ttl now f r s out w' :
  Counter.Run now f r (fresh s) = (out, w') →
  forallb exec_reports (w_log w') = true →
  ∃ execErr incrReply ttlReply rest,
    w_log w' = Batch execErr [(Incr (Key r), incrReply); (TTL (Key r), ttlReply)]
                 :: rest ∧
    (ttlReply = None →
     out = fail FailedExecuteIncrement (Key r) ∧ rest = [] ∧
     live (Key r) (w_store w') ≫= e_exp = live (Key r) s ≫= e_exp) ∧
    (∀ res, out = ok res →
     ∃ n d,
       execErr = false ∧ incrReply = Some n ∧ ttlReply = Some d ∧ d ≠ -2 ∧
       (d = Counter.keyWithoutExpire ↔
          live (Key r) s = None ∨
          live (Key r) s = Some (mkEntry (VInt (n - 1)) None)) ∧
       (d = Counter.keyWithoutExpire →
        (∃ b, rest = [Single (Expire (Key r) (Duration r)) (Some b)]) ∧
        ExpiresAt res = Go.Add now (Duration r) ∧
        live (Key r) (w_store w')
          = if 0 <? formatSec (Duration r)
            then Some (mkEntry (VInt n)
                         (Some (clock s + formatSec (Duration r) * 1000)))
            else None) ∧
       (d ≠ Counter.keyWithoutExpire →
        rest = [] ∧
        ExpiresAt res = Go.Add now d ∧
        ∃ t, live (Key r) s = Some (mkEntry (VInt (n - 1)) (Some t)) ∧
             d = (t - clock s + 500) / 1000 * Go.Second ∧
             live (Key r) (w_store w') = Some (mkEntry (VInt n) (Some t)))).
Proof.
  intros HR Hc. apply Counter_Run_inv in HR. cbn [fresh w_store w_log] in HR.
  assert (Hread : ∀ s1 n s2 d,
    attempt (Counter.f_incr f) (Incr (Key r)) s = (s1, Some n) →
    attempt (Counter.f_ttl f) (TTL (Key r)) s1 = (s2, Some d) →
    s2 = s1 ∧ clock s1 = clock s ∧ d ≠ -2 ∧
    (d = Counter.keyWithoutExpire ∧ live (Key r) s1 = Some (mkEntry (VInt n) None) ∧
       (live (Key r) s = None ∨ live (Key r) s = Some (mkEntry (VInt (n - 1)) None))
     ∨ d ≠ Counter.keyWithoutExpire ∧
       ∃ t, live (Key r) s = Some (mkEntry (VInt (n - 1)) (Some t)) ∧
            d = (t - clock s + 500) / 1000 * Go.Second ∧
            live (Key r) s1 = Some (mkEntry (VInt n) (Some t)))).
  { intros s1 n s2 d Hi Ht. apply attempt_ok in Hi, Ht. cbn [apply] in Hi, Ht.
    apply incr_ok in Hi as (Hck & exp & L1 & Hnew & Hold).
    apply ttl_ok in Ht as [-> Ht]. rewrite L1 in Ht. cbn [e_exp] in Ht.
    split; [done|]. split; [done|].
    unfold Counter.keyWithoutExpire.
    destruct (live (Key r) s) as [[v e0]|] eqn:L.
    - destruct (Hold _ eq_refl) as (-> & Hv & _). cbn in Hv. subst v.
      destruct e0 as [t|].
      + destruct Ht as [Ht Hlt]. pose proof (ttl_nonneg _ _ Hlt) as Hnn.
        rewrite Hck in Ht, Hnn.
        split; [lia|]. right. split; [lia|]. exists t. by rewrite <- Ht.
      + cbn in Ht. subst d. split; [done|]. left. auto.
    - destruct (Hnew eq_refl) as [-> ->]. cbn in Ht. subst d.
      split; [done|]. left. auto. }
  inversion HR as
    [ s1 ri s2 rt Hi Ht Hx
    | s1 s2 rt Hi Ht Hx
    | s1 n s2 d Hi Ht Hx Hd
    | s1 n s2 rt s3 Hi Ht Hx Hrt He
    | s1 n s2 rt s3 b Hi Ht Hx Hrt He ]; subst; cbn [app] in *.
  - exists true, ri, rt, []. split; [done|]. split; [|discriminate].
    intros ->. split; [done|]. split; [done|].
    apply attempt_failed in Ht as ->. cbn [w_store].
    by apply incr_keeps_deadline in Hi.
  - cbn in Hc. discriminate.
  - exists false, (Some n), (Some d), []. split; [done|]. split; [discriminate|].
    intros res Hres. exists n, d.
    apply decide_counter_result in Hres as (_ & _ & Hexp & _).
    destruct (Hread _ _ _ _ Hi Ht)
      as (-> & Hck & Hd2 & [(Heq & _) | (_ & t & L0 & Hdt & L1)]); [done|].
    split_and!; try done.
    + split; [done|]. rewrite L0. by intros [|].
    + intros _. cbn [w_store]. split_and!; eauto.
  - destruct Hrt as [-> | ->]; [cbn in Hc; discriminate|].
    exists false, (Some n), (Some Counter.keyWithoutExpire),
      [Single (Expire (Key r) (Duration r)) None].
    split; [done|]. split; discriminate.
  - destruct Hrt as [-> | ->]; [cbn in Hc; discriminate|].
    exists false, (Some n), (Some Counter.keyWithoutExpire),
      [Single (Expire (Key r) (Duration r)) (Some b)].
    split; [done|]. split; [discriminate|].
    intros res Hres. exists n, Counter.keyWithoutExpire.
    apply decide_counter_result in Hres as (_ & _ & Hexp & _).
    destruct (Hread _ _ _ _ Hi Ht)
      as (-> & Hck & Hd2 & [(_ & L1 & L0) | (Hne & _)]); [|done].
    split_and!; try done.
    intros _. split; [eauto|]. split; [done|]. cbn [w_store].
    apply attempt_ok in He. cbn [apply] in He.
    rewrite <- Hck. by apply (expire_sets_deadline _ _ _ _ _ _ L1 He).
Qed.

Lemma effective_ttl_witness :
  let run := Counter.Run Sample.t0 Counter.no_faults Sample.some_user
               (fresh Sample.store0) in
  ∃ execErr incrReply ttlReply rest,
    w_log run.2 = Batch execErr [(Incr "some-user", incrReply);
                                 (TTL "some-user", ttlReply)] :: rest ∧
    (ttlReply = None →
     run.1 = fail FailedExecuteIncrement "some-user" ∧ rest = [] ∧
     live "some-user" (w_store run.2) ≫= e_exp = live "some-user" Sample.store0 ≫= e_exp) ∧
    (∀ res, run.1 = ok res →
     ∃ n d,
       execErr = false ∧ incrReply = Some n ∧ ttlReply = Some d ∧ d ≠ -2 ∧
       (d = Counter.keyWithoutExpire ↔
          live "some-user" Sample.store0 = None ∨
          live "some-user" Sample.store0 = Some (mkEntry (VInt (n - 1)) None)) ∧
       (d = Counter.keyWithoutExpire →
        (∃ b, rest = [Single (Expire "some-user" Go.Minute) (Some b)]) ∧
        ExpiresAt res = Go.Add Sample.t0 Go.Minute ∧
        live "some-user" (w_store run.2)
          = if 0 <? formatSec Go.Minute
            then Some (mkEntry (VInt n)
                         (Some (clock Sample.store0 + formatSec Go.Minute * 1000)))
            else None) ∧
       (d ≠ Counter.keyWithoutExpire →
        rest = [] ∧
        ExpiresAt res = Go.Add Sample.t0 d ∧
        ∃ t, live "some-user" Sample.store0 = Some (mkEntry (VInt (n - 1)) (Some t)) ∧
             d = (t - clock Sample.store0 + 500) / 1000 * Go.Second ∧
             live "some-user" (w_store run.2) = Some (mkEntry (VInt n) (Some t)))).
Proof.
  cbn zeta.
  apply (effective_ttl Sample.t0 Counter.no_faults Sample.some_user Sample.store0
           (Counter.Run Sample.t0 Counter.no_faults Sample.some_user
              (fresh Sample.store0)).1).
  - vm_compute. reflexivity.
  - vm_compute. reflexivity.
Defined.

(** ** C4 *)




(** ** Sorted sets *)

Lemma zcount_in_all zs : zcount_in NegInf PosInf zs = Z.of_nat (length zs).
Proof.
  unfold zcount_in. f_equal. f_equal.
  induction zs as [|p zs IH]; [done|].
  change (p :: List.filter (λ p, in_range NegInf PosInf p.2) zs = p :: zs).
  by rewrite IH.
Qed.

Lemma zupdate_length m sc zs : length (zupdate m sc zs) = length zs.
Proof.
  induction zs as [|[m' sc'] zs IH]; [done|]. cbn.
  destruct (String.eqb m' m); cbn; [done | by rewrite IH].
Qed.

Lemma zinsert_length m sc zs :
  (1 <= length (zinsert m sc zs) ∧ length (zinsert m sc zs) <= S (length zs))%nat.
Proof.
  unfold zinsert. destruct (zmember m zs) eqn:E.
  - rewrite zupdate_length. destruct zs; [discriminate|]. cbn. lia.
  - rewrite length_app. cbn. lia.
Qed.

Lemma zinsert_new m sc zs : zmember m zs = false → zinsert m sc zs = zs ++ [(m, sc)].
Proof. unfold zinsert. by intros ->. Qed.

Lemma zkeep_length lo hi zs : (length (zkeep lo hi zs) <= length zs)%nat.
Proof. apply List.filter_length_le. Qed.

(** Without scores from before the epoch, what the pruning of [0, ws]
    keeps is counted by the first count over [ws, +inf). *)
Lemma zkeep_within_precheck ws zs :
  Forall (λ p, 0 <= p.2) zs →
  Z.of_nat (length (zkeep (Incl 0) (Incl ws) zs)) <= zcount_in (Incl ws) PosInf zs.
Proof.
  unfold zkeep, zcount_in. intros H. apply Nat2Z.inj_le.
  induction H as [|[m sc] zs Hsc _ IH]; [done|]. cbn in *.
  assert (in_range (Incl 0) (Incl ws) sc = (sc <=? ws)) as ->.
  { unfold in_range. cbn. by destruct (Z.leb_spec 0 sc); [|lia]. }
  assert (in_range (Incl ws) PosInf sc = (ws <=? sc)) as ->.
  { unfold in_range. cbn. apply andb_true_r. }
  destruct (Z.leb_spec sc ws), (Z.leb_spec ws sc); cbn; lia.
Qed.

Lemma zset_of_live k s zs exp :
  live k s = Some (mkEntry (VZSet zs) exp) → zset_of k s = zs.
Proof. unfold zset_of. by intros ->. Qed.

Lemma zcount_ok k lo hi s s' c :
  zcount k lo hi s = (s', Some c) →
  s' = s ∧ c = zcount_in lo hi (zset_of k s) ∧ counter_of k s = None.
Proof.
  unfold zcount, zset_of, counter_of.
  destruct (live k s) as [[[n|zs] exp]|]; [discriminate | |]; by intros [= <- <-].
Qed.

Lemma zrem_ok k lo hi s s' c :
  zremrangebyscore k lo hi s = (s', Some c) →
  zset_of k s' = zkeep lo hi (zset_of k s) ∧ counter_of k s' = None.
Proof.
  unfold zremrangebyscore. destruct (live k s) as [[[n|zs] exp]|] eqn:L.
  - discriminate.
  - rewrite (zset_of_live _ _ _ _ L).
    destruct (zkeep lo hi zs) as [|p kept] eqn:K; intros [= <- <-].
    + unfold zset_of, counter_of. by rewrite live_del.
    + pose proof (live_put_live k s (VZSet (p :: kept)) _ L) as L'. cbn in L'.
      unfold zset_of, counter_of. by rewrite L'.
  - intros [= <- <-]. unfold zset_of, counter_of. by rewrite L.
Qed.

Lemma zadd_ok k sc m s s' c :
  zadd k sc m s = (s', Some c) →
  zset_of k s' = zinsert m sc (zset_of k s) ∧
  ∃ exp, live k s' = Some (mkEntry (VZSet (zinsert m sc (zset_of k s))) exp).
Proof.
  unfold zadd. destruct (live k s) as [[[n|zs] exp]|] eqn:L.
  - discriminate.
  - rewrite (zset_of_live _ _ _ _ L). intros [= <- <-].
    pose proof (live_put_live k s (VZSet (zinsert m sc zs)) _ L) as L'. cbn in L'.
    split; [by apply zset_of_live in L' | eauto].
  - intros [= <- <-]. unfold zset_of at 2 3. rewrite L.
    pose proof (live_put_forever k s (VZSet [(m, sc)])) as L'.
    split; [by apply zset_of_live in L' | eauto].
Qed.

(** What a pipeline whose three commands all succeed does to the key. *)
Lemma batch_ok now item f r s1 s2 s3 s4 a b m :
  attempt (SortedSet.f_rem f)
    (ZRemRangeByScore (Key r) (Incl 0) (Incl (SortedSet.windowStart now r))) s1
    = (s2, Some a) →
  attempt (SortedSet.f_add f) (ZAdd (Key r) (Go.UnixMilli now) item) s2 = (s3, Some b) →
  attempt (SortedSet.f_count f) (ZCount (Key r) NegInf PosInf) s3 = (s4, Some m) →
  zset_of (Key r) s4 =
    zinsert item (Go.UnixMilli now)
      (zkeep (Incl 0) (Incl (SortedSet.windowStart now r)) (zset_of (Key r) s1)) ∧
  m = zcard (Key r) s4.
Proof.
  intros H1 H2 H3. apply attempt_ok in H1, H2, H3. cbn [apply] in *.
  apply zrem_ok in H1 as [K1 _]. apply zadd_ok in H2 as [K2 _].
  apply zcount_ok in H3 as (-> & -> & _).
  rewrite zcount_in_all. unfold zcard. by rewrite K2, K1.
Qed.

Lemma to_uint64_small z : 0 <= z <= max_int64 → Go.to_uint64 z = z.
Proof.
  intros. unfold Go.to_uint64. apply Z.mod_small.
  unfold max_int64 in *. lia.
Qed.

Lemma fits_zset_bound k s :
  fits_int64 k s → Z.of_nat (length (zset_of k s)) < max_int64.
Proof.
  unfold fits_int64, zset_of.
  destruct (live k s) as [[[n|zs] exp]|]; cbn; unfold max_int64; lia.
Qed.

(** The count after the pipeline fits an int64 when the set did before. *)
Lemma batch_count_fits k s item sc lo hi :
  fits_int64 k s →
  1 <= Z.of_nat (length (zinsert item sc (zkeep lo hi (zset_of k s)))) <= max_int64.
Proof.
  intros F. apply fits_zset_bound in F.
  pose proof (zinsert_length item sc (zkeep lo hi (zset_of k s))).
  pose proof (zkeep_length lo hi (zset_of k s)). lia.
Qed.

(** ** C6 *)

(** C6. When the pipeline of a sliding-window call succeeds, TotalRequests
    is the number of entries the key's set holds after the pipeline, State
    is Deny exactly when that number is above the limit and Allow
    otherwise, and ExpiresAt is now plus the duration either way. *)
Theorem batch_count_decides now item f r s out w' a b m :
  fits_int64 (Key r) s →
  SortedSet.Run now item f r (fresh s) = (out, w') →
  last (w_log w') =
    Some (Batch false (zip (SortedSet.batch now item r) [Some a; Some b; Some m])) →
  ∃ res, out = ok res ∧
    TotalRequests res = zcard (Key r) (w_store w') ∧
    (RState res = Deny ↔ Limit r < zcard (Key r) (w_store w')) ∧
    (RState res = Allow ↔ zcard (Key r) (w_store w') <= Limit r) ∧
    ExpiresAt res = Go.Add now (Duration r).
Proof.
  intros F HR HL. apply SortedSet_Run_inv in HR. cbn [fresh w_store w_log] in HR.
  inversion HR as [ s1 n Hp Hn | s1 rp s2 rr s3 ra s4 rc Hp Hn H1 H2 H3 ]; subst;
    cbn in HL; [discriminate|].
  injection HL as Hx -> -> ->. rewrite Hx. cbn [mutate_outcome w_store].
  cbn [w_store fresh] in Hp.
  pose proof (attempt_read (SortedSet.f_pre f) (SortedSet.precheck now r) s eq_refl) as Hs.
  rewrite Hp in Hs. cbn in Hs. subst s1.
  destruct (batch_ok _ _ _ _ _ _ _ _ _ _ _ H1 H2 H3) as [Hz Hm].
  assert (Hu : Go.to_uint64 m = m).
  { apply to_uint64_small. rewrite Hm. unfold zcard. rewrite Hz.
    pose proof (batch_count_fits (Key r) s item (Go.UnixMilli now) (Incl 0)
                  (Incl (SortedSet.windowStart now r)) F). lia. }
  rewrite <- Hm.
  destruct (decide_sorted_cases now r m) as [[Hc ->] | [Hc ->]];
    rewrite Hu in *; eexists; (split; [reflexivity|]); cbn;
    repeat split; try done; try lia.
Qed.

Lemma batch_count_decides_witness :
  ∃ res,
    (SortedSet.Run Sample.t0 "token" SortedSet.no_faults Sample.some_user
       (fresh Sample.store0)).1 = ok res ∧
    TotalRequests res = 1 ∧
    (RState res = Deny ↔ Limit Sample.some_user < 1) ∧
    (RState res = Allow ↔ 1 <= Limit Sample.some_user) ∧
    ExpiresAt res = Go.Add Sample.t0 (Duration Sample.some_user).
Proof.
  apply (batch_count_decides Sample.t0 "token" SortedSet.no_faults Sample.some_user
           Sample.store0
           (SortedSet.Run Sample.t0 "token" SortedSet.no_faults Sample.some_user
              (fresh Sample.store0)).1
           (SortedSet.Run Sample.t0 "token" SortedSet.no_faults Sample.some_user
              (fresh Sample.store0)).2
           0 1 1).
  - vm_compute. exact I.
  - vm_compute. reflexivity.
  - vm_compute. reflexivity.
Defined.

(** ** C3 *)

(** What ZREMRANGEBYSCORE key 0 ws keeps: the scores below zero and the
    scores above ws. *)
Lemma zkeep_window ws zs :
  zkeep (Incl 0) (Incl ws) zs
  = List.filter (λ p : string * Z, (p.2 <? 0) || (ws <? p.2)) zs.
Proof.
  unfold zkeep. apply List.filter_ext. intros [m sc]. unfold in_range. cbn.
  destruct (Z.leb_spec 0 sc), (Z.leb_spec sc ws), (Z.ltb_spec sc 0), (Z.ltb_spec ws sc);
    cbn; (reflexivity || lia).
Qed.

(** C3, as stated, at the boundary: the one entry on record has a score
    equal to windowStart; the first count still counts it, and the
    pipeline removes it, so that the set holds the new token alone. *)
Lemma boundary_entry_is_pruned :
  let run := SortedSet.Run Sample.t0 "token" SortedSet.no_faults Sample.some_user
               (fresh (Sample.one_entry 60000)) in
  zset_of "some-user" (Sample.one_entry 60000)
    = [("first", SortedSet.windowStart Sample.t0 Sample.some_user)] ∧
  w_log run.2
    = [Single (SortedSet.precheck Sample.t0 Sample.some_user) (Some 1);
       Batch false (zip (SortedSet.batch Sample.t0 "token" Sample.some_user)
                        [Some 1; Some 1; Some 1])] ∧
  run.1 = ok (mkResult Allow 1 (Sample.t0 + Go.Minute)) ∧
  zset_of "some-user" (w_store run.2) = [("token", Go.UnixMilli Sample.t0)].
Proof. vm_compute. repeat split; reflexivity. Qed.

(** C3, amended. A sliding-window call either is denied by its first
    count and sends nothing else, or sends, after that count, exactly one
    pipeline of three commands: ZREMRANGEBYSCORE over [0, windowStart],
    ZADD of the token with the current millisecond as score, ZCOUNT over
    the whole range.  When the three succeed, the set keeps exactly the
    entries whose score is above windowStart (or below zero): an entry
    scored windowStart itself goes.  The token is then inserted, at the
    end when it is new, and the count replied is the number of entries the
    set now holds. *)
Theorem pipeline_prunes_inserts_counts now item f r s out w' :
  SortedSet.Run now item f r (fresh s) = (out, w') →
  let ws := SortedSet.windowStart now r in
  let kept :=
    List.filter (λ p : string * Z, (p.2 <? 0) || (ws <? p.2)) (zset_of (Key r) s) in
  (∃ n, Limit r <= Go.to_uint64 n ∧
        w_log w' = [Single (SortedSet.precheck now r) (Some n)]) ∨
  (∃ rp e rr ra rc,
     w_log w' =
       [Single (SortedSet.precheck now r) rp;
        Batch e [(ZRemRangeByScore (Key r) (Incl 0) (Incl ws), rr);
                 (ZAdd (Key r) (Go.UnixMilli now) item, ra);
                 (ZCount (Key r) NegInf PosInf, rc)]] ∧
     (∀ n, rp = Some n → Go.to_uint64 n < Limit r) ∧
     (is_Some rr → is_Some ra → is_Some rc →
      zset_of (Key r) (w_store w') = zinsert item (Go.UnixMilli now) kept ∧
      (zmember item kept = false →
       zset_of (Key r) (w_store w') = kept ++ [(item, Go.UnixMilli now)]) ∧
      rc = Some (zcard (Key r) (w_store w')))).
Proof.
  intros HR ws kept. apply SortedSet_Run_inv in HR. cbn [fresh w_store w_log] in HR.
  inversion HR as [ s1 n Hp Hn | s1 rp s2 rr s3 ra s4 rc Hp Hn H1 H2 H3 ]; subst;
    cbn [app w_store]; [left; eauto | right].
  exists rp, (SortedSet.f_exec f), rr, ra, rc. split; [done|]. split; [done|].
  intros [a ->] [b ->] [m ->].
  pose proof (attempt_read (SortedSet.f_pre f) (SortedSet.precheck now r) s eq_refl) as Hs.
  cbn [fresh w_store] in Hp. rewrite Hp in Hs. cbn in Hs. subst s1.
  destruct (batch_ok _ _ _ _ _ _ _ _ _ _ _ H1 H2 H3) as [Hz ->].
  rewrite zkeep_window in Hz. fold ws kept in Hz.
  split; [done|]. split; [|done].
  intros Hnew. by rewrite Hz, zinsert_new.
Qed.

Lemma pipeline_prunes_inserts_counts_witness :
  let run := SortedSet.Run Sample.t0 "token" SortedSet.no_faults Sample.some_user
               (fresh (Sample.one_entry 60000)) in
  let ws := SortedSet.windowStart Sample.t0 Sample.some_user in
  let kept :=
    List.filter (λ p : string * Z, (p.2 <? 0) || (ws <? p.2))
      (zset_of "some-user" (Sample.one_entry 60000)) in
  (∃ n, Limit Sample.some_user <= Go.to_uint64 n ∧
        w_log run.2 = [Single (SortedSet.precheck Sample.t0 Sample.some_user) (Some n)]) ∨
  (∃ rp e rr ra rc,
     w_log run.2 =
       [Single (SortedSet.precheck Sample.t0 Sample.some_user) rp;
        Batch e [(ZRemRangeByScore "some-user" (Incl 0) (Incl ws), rr);
                 (ZAdd "some-user" (Go.UnixMilli Sample.t0) "token", ra);
                 (ZCount "some-user" NegInf PosInf, rc)]] ∧
     (∀ n, rp = Some n → Go.to_uint64 n < Limit Sample.some_user) ∧
     (is_Some rr → is_Some ra → is_Some rc →
      zset_of "some-user" (w_store run.2) = zinsert "token" (Go.UnixMilli Sample.t0) kept ∧
      (zmember "token" kept = false →
       zset_of "some-user" (w_store run.2) = kept ++ [("token", Go.UnixMilli Sample.t0)]) ∧
      rc = Some (zcard "some-user" (w_store run.2)))).
Proof.
  apply (pipeline_prunes_inserts_counts Sample.t0 "token" SortedSet.no_faults
           Sample.some_user (Sample.one_entry 60000)
           (SortedSet.Run Sample.t0 "token" SortedSet.no_faults Sample.some_user
              (fresh (Sample.one_entry 60000))).1).
  vm_compute. reflexivity.
Defined.

(** ** C2 *)

(** C2, as stated, at a concrete call: the limit is 1 and one request is on
    record; the first count is lost, the pipeline runs, the call returns
    Deny, and the set has grown by the new token. *)
Lemma deny_after_insert :
  let run := SortedSet.Run Sample.t0 "token" Sample.precheck_lost (Sample.at_most 1)
               (fresh (Sample.one_entry 1000)) in
  run.1 = ok (mkResult Deny 2 (Sample.t0 + Go.Minute)) ∧
  zset_of "some-user" (Sample.one_entry 1000)
    = [("first", Go.UnixMilli Sample.t0 - 1000)] ∧
  zset_of "some-user" (w_store run.2)
    = [("first", Go.UnixMilli Sample.t0 - 1000); ("token", Go.UnixMilli Sample.t0)] ∧
  w_store run.2 ≠ Sample.one_entry 1000.
Proof.
  vm_compute. repeat split; try reflexivity. intros H. discriminate H.
Qed.

(** C2, amended. A sliding-window call whose first count is not lost, on a
    key with fewer than 2^63 entries and no score from before the epoch,
    leaves the store exactly as it was whenever it returns Deny: the only
    command sent is the first count, that count is at least the limit, and
    the Result carries it with ExpiresAt = now + duration.  And whenever
    the first count succeeds with a count that is at least the limit, the
    call returns that Deny. *)
Theorem deny_leaves_store now item f r s out w' :
  SortedSet.f_pre f = false →
  fits_int64 (Key r) s →
  after_epoch (Key r) s →
  SortedSet.Run now item f r (fresh s) = (out, w') →
  let n := zcount_in (Incl (SortedSet.windowStart now r)) PosInf (zset_of (Key r) s) in
  let denied := ok (mkResult Deny n (Go.Add now (Duration r))) in
  let unchanged := mkWorld s [Single (SortedSet.precheck now r) (Some n)] in
  (∀ res, out = ok res → RState res = Deny →
     Limit r <= n ∧ out = denied ∧ w' = unchanged) ∧
  (counter_of (Key r) s = None → Limit r <= n → out = denied ∧ w' = unchanged).
Proof.
  intros Hf F E HR n denied unchanged.
  assert (Hn : 0 <= n <= max_int64).
  { subst n. unfold zcount_in. apply fits_zset_bound in F.
    pose proof (List.filter_length_le
      (λ p : string * Z, in_range (Incl (SortedSet.windowStart now r)) PosInf p.2)
      (zset_of (Key r) s)). lia. }
  assert (Hpre : counter_of (Key r) s = None →
    attempt (SortedSet.f_pre f) (SortedSet.precheck now r) s = (s, Some n)).
  { intros Hc. rewrite Hf. cbn. unfold zcount, counter_of, zset_of in *.
    subst n. unfold zset_of.
    by destruct (live (Key r) s) as [[[c|zs] exp]|]. }
  apply SortedSet_Run_inv in HR. cbn [fresh w_store w_log] in HR.
  inversion HR as [ s1 c Hp Hc | s1 rp s2 rr s3 ra s4 rc Hp Hc H1 H2 H3 ]; subst;
    cbn [w_store fresh] in Hp; cbn [w_log fresh app].
  - (* denied by the first count *)
    apply attempt_ok in Hp. cbn in Hp. apply zcount_ok in Hp as (-> & -> & _).
    change SortedSet.sortedSetMax with PosInf in *.
    fold n in Hc |- *. rewrite (to_uint64_small n Hn) in *.
    split; [intros res _ _ | intros _ _]; done.
  - (* the pipeline ran *)
    split.
    + intros res Ho HD. exfalso.
      apply mutate_outcome_result in Ho as (_ & [a ->] & [b ->] & m & -> & Ho).
      pose proof (attempt_read (SortedSet.f_pre f) (SortedSet.precheck now r) s eq_refl)
        as Hs. rewrite Hp in Hs. cbn in Hs. subst s1.
      destruct rp as [c|].
      2:{ rewrite Hf in Hp. cbn in Hp. unfold zcount in Hp.
          destruct (live (Key r) s) as [[[c|zs] exp]|] eqn:L; try discriminate.
          apply attempt_ok in H1. cbn in H1. unfold zremrangebyscore in H1.
          rewrite L in H1. discriminate. }
      apply attempt_ok in Hp. cbn in Hp. apply zcount_ok in Hp as (_ & -> & _).
      change SortedSet.sortedSetMax with PosInf in *.
      fold n in Hc. specialize (Hc n eq_refl). rewrite (to_uint64_small n Hn) in Hc.
      destruct (batch_ok _ _ _ _ _ _ _ _ _ _ _ H1 H2 H3) as [Hz Hm].
      unfold zcard in Hm. rewrite Hz in Hm.
      pose proof (batch_count_fits (Key r) s item (Go.UnixMilli now) (Incl 0)
                    (Incl (SortedSet.windowStart now r)) F) as Hb.
      pose proof (zinsert_length item (Go.UnixMilli now)
        (zkeep (Incl 0) (Incl (SortedSet.windowStart now r)) (zset_of (Key r) s))) as Hi.
      pose proof (zkeep_within_precheck (SortedSet.windowStart now r) _ E) as Hk.
      fold n in Hk.
      apply decide_sorted_result in Ho as (_ & Ht & _ & [[HA _] | [_ HL]]);
        [congruence|].
      rewrite Ht, to_uint64_small in HL; lia.
    + intros Hcn Hle. exfalso. specialize (Hpre Hcn). rewrite Hpre in Hp.
      injection Hp as <- <-. specialize (Hc n eq_refl).
      rewrite (to_uint64_small n Hn) in Hc. lia.
Qed.

Lemma deny_leaves_store_witness :
  let run := SortedSet.Run Sample.t0 "token" SortedSet.no_faults (Sample.at_most 1)
               (fresh (Sample.one_entry 1000)) in
  let denied := ok (mkResult Deny 1 (Sample.t0 + Go.Minute)) in
  let unchanged :=
    mkWorld (Sample.one_entry 1000)
      [Single (SortedSet.precheck Sample.t0 (Sample.at_most 1)) (Some 1)] in
  (∀ res, run.1 = ok res → RState res = Deny →
     1 <= 1 ∧ run.1 = denied ∧ run.2 = unchanged) ∧
  (counter_of "some-user" (Sample.one_entry 1000) = None → 1 <= 1 →
     run.1 = denied ∧ run.2 = unchanged).
Proof.
  apply (deny_leaves_store Sample.t0 "token" SortedSet.no_faults (Sample.at_most 1)
           (Sample.one_entry 1000)
           (SortedSet.Run Sample.t0 "token" SortedSet.no_faults (Sample.at_most 1)
              (fresh (Sample.one_entry 1000))).1
           (SortedSet.Run Sample.t0 "token" SortedSet.no_faults (Sample.at_most 1)
              (fresh (Sample.one_entry 1000))).2).
  - reflexivity.
  - vm_compute. reflexivity.
  - vm_compute. repeat constructor. discriminate.
  - vm_compute. reflexivity.
Defined.

(** ** C8 *)

(** C8. With a limit of zero, every call of either strategy that returns a
    Result returns Deny, on a key that holds nothing, a counter that is not
    negative, or a sorted set of fewer than 2^63 entries. *)
Theorem zero_limit_denies st now r s res w' :
  fits_int64 (Key r) s →
  Limit r = 0 →
  Run st now r (fresh s) = (ok res, w') →
  RState res = Deny.
Proof.
  intros F HL HR. destruct st as [f | item f]; cbn [Run] in HR.
  - apply Counter_Run_inv in HR. cbn [fresh w_store w_log] in HR.
    assert (Hn : ∀ s1 n, attempt (Counter.f_incr f) (Incr (Key r)) s = (s1, Some n) →
                         0 < Go.to_uint64 n).
    { intros s1 n Hi. apply attempt_ok in Hi. cbn in Hi.
      apply incr_ok in Hi as (_ & exp & _ & Hnew & Hold).
      unfold fits_int64 in F.
      destruct (live (Key r) s) as [[[c|zs] ex]|] eqn:L.
      - destruct (Hold _ eq_refl) as (_ & [= Hc] & Hlt).
        rewrite to_uint64_small; lia.
      - by destruct (Hold _ eq_refl) as (_ & ? & _).
      - destruct (Hnew eq_refl) as [_ ->]. done. }
    inversion HR as [ | | s1 n s2 d Hi Ht Hx Hd Ho | | s1 n s2 rt s3 b Hi Ht Hx Hrt He Ho ];
      subst; cbn [w_store fresh] in Hi; specialize (Hn _ _ Hi);
      apply decide_counter_result in Ho as (_ & Ht' & _ & [[_ HA] | [HD _]]);
      trivial; lia.
  - apply SortedSet_Run_inv in HR. cbn [fresh w_store w_log] in HR.
    inversion HR as [ s1 c Hp Hc | s1 rp s2 rr s3 ra s4 rc Hp Hc H1 H2 H3 Ho ];
      subst; cbn [w_store fresh] in Hp; [reflexivity|].
    apply mutate_outcome_result in Ho as (_ & [a ->] & [b ->] & m & -> & Ho).
    pose proof (attempt_read (SortedSet.f_pre f) (SortedSet.precheck now r) s eq_refl)
      as Hs. rewrite Hp in Hs. cbn in Hs. subst s1.
    destruct (batch_ok _ _ _ _ _ _ _ _ _ _ _ H1 H2 H3) as [Hz Hm].
    unfold zcard in Hm. rewrite Hz in Hm.
    pose proof (batch_count_fits (Key r) s item (Go.UnixMilli now) (Incl 0)
                  (Incl (SortedSet.windowStart now r)) F) as Hb.
    apply decide_sorted_result in Ho as (_ & Ht & _ & [[_ HA] | [HD _]]); trivial.
    rewrite Ht, to_uint64_small in HA; lia.
Qed.

Lemma zero_limit_denies_witness :
  RState (mkResult Deny 0 (Sample.t0 + Go.Minute)) = Deny.
Proof.
  apply (zero_limit_denies (sortedSetCounter "token" SortedSet.no_faults) Sample.t0
           (Sample.at_most 0) Sample.store0 _
           (Run (sortedSetCounter "token" SortedSet.no_faults) Sample.t0
                (Sample.at_most 0) (fresh Sample.store0)).2).
  - vm_compute. exact I.
  - reflexivity.
  - vm_compute. reflexivity.
Defined.

(** ** C1 *)

Lemma formatSec_pos d : 0 < d → 1 <= formatSec d.
Proof.
  intros Hd. unfold formatSec, Go.Second.
  destruct (0 <? d) eqn:E0; [|apply Z.ltb_ge in E0; lia].
  destruct (d <? 1000000000) eqn:E1; cbn [andb]; [lia|].
  apply Z.ltb_ge in E1. apply Z.quot_le_lower_bound; lia.
Qed.

Lemma live_fast_forward_none k a s : 0 <= a → live k s = None → live k (fast_forward a s) = None.
Proof.
  unfold live, fast_forward, expired. cbn. intros Ha.
  destruct (db s !! k) as [e|]; [|done].
  destruct (e_exp e) as [t|]; [|done].
  destruct (Z.leb_spec t (clock s)); [|done].
  destruct (Z.leb_spec t (clock s + a)); [done | lia].
Qed.

Lemma live_fast_forward_some k a s v t :
  clock s + a < t →
  live k s = Some (mkEntry v (Some t)) →
  live k (fast_forward a s) = Some (mkEntry v (Some t)).
Proof.
  unfold live, fast_forward, expired. cbn. intros Ha.
  destruct (db s !! k) as [[v' [t'|]]|]; cbn; [| by intros [= _] | done].
  destruct (Z.leb_spec t' (clock s)); [done|].
  intros [= -> ->].
  by destruct (Z.leb_spec t (clock s + a)); [lia|].
Qed.

(** A fault-free call on a key that is not there: the counter starts at
    one and the expiry is armed with the Duration of the request. *)
Lemma counter_run_new now r s :
  live (Key r) s = None →
  0 < Duration r →
  Counter.Run now Counter.no_faults r (fresh s) =
    (Counter.decide_ now r 1 (Duration r),
     mkWorld
       (put (Key r)
            (mkEntry (VInt 1) (Some (clock s + formatSec (Duration r) * 1000)))
            (put (Key r) (mkEntry (VInt 1) None) s))
       [Batch false [(Incr (Key r), Some 1); (TTL (Key r), Some (-1))];
        Single (Expire (Key r) (Duration r)) (Some 1)]).
Proof.
  intros L HD. pose proof (formatSec_pos _ HD) as HS.
  unfold Counter.Run. unfold_monad. cbn -[Counter.decide_ Z.eqb incr ttl expire].
  unfold incr. rewrite L. unfold ttl. rewrite live_put_forever.
  cbn -[Counter.decide_ expire]. unfold expire. rewrite live_put_forever.
  destruct (Z.leb_spec (formatSec (Duration r)) 0); [lia|]. reflexivity.
Qed.

(** A fault-free call on a counter whose window is still open: one more
    request is counted and the deadline stays. *)
Lemma counter_run_kept now r s c t :
  live (Key r) s = Some (mkEntry (VInt c) (Some t)) →
  c < max_int64 →
  let d := (t - clock s + 500) / 1000 * Go.Second in
  Counter.Run now Counter.no_faults r (fresh s) =
    (Counter.decide_ now r (c + 1) d,
     mkWorld (put (Key r) (mkEntry (VInt (c + 1)) (Some t)) s)
       [Batch false [(Incr (Key r), Some (c + 1)); (TTL (Key r), Some d)]]).
Proof.
  intros L Hc d.
  pose proof (live_not_expired _ _ _ L) as X. unfold expired in X. cbn in X.
  apply Z.leb_gt in X. pose proof (ttl_nonneg _ _ X) as Hd. fold d in Hd.
  unfold Counter.Run. unfold_monad. cbn -[Counter.decide_ Z.eqb incr ttl expire].
  unfold incr. rewrite L. apply Z.ltb_lt in Hc. rewrite Hc.
  unfold ttl. rewrite (live_put_same _ _ _ (VInt (c + 1)) _ L).
  cbn -[Counter.decide_ Z.eqb expire]. fold d.
  destruct (Z.eqb_spec d Counter.keyWithoutExpire) as [E|_]; [|reflexivity].
  unfold Counter.keyWithoutExpire in E. lia.
Qed.

Lemma decide_counter_nth now r n d :
  0 <= n <= max_int64 →
  ∃ res, Counter.decide_ now r n d = ok res ∧ TotalRequests res = n ∧
         RState res = (if n <=? Limit r then Allow else Deny).
Proof.
  intros Hn.
  destruct (decide_counter_cases now r n d) as [[Hc ->] | [Hc ->]];
    rewrite (to_uint64_small n Hn) in *; eexists; (split; [reflexivity|]);
    (split; [reflexivity|]); cbn; destruct (Z.leb_spec n (Limit r)); (done || lia).
Qed.

(** Inside an open window the calls count on from what the key holds. *)
Lemma play_counting uuid r sched : ∀ i0 s c t,
  live (Key r) s = Some (mkEntry (VInt c) (Some t)) →
  0 <= c →
  Forall (λ p : Z * Go.Time, 0 <= p.1) sched →
  clock s + foldr Z.add 0 (sched.*1) < t →
  c + Z.of_nat (length sched) <= max_int64 →
  ∀ i p, sched !! i = Some p →
  ∃ res,
    (Script.play Script.FixedWindow uuid i0 (Script.repeat_request r sched) s).1 !! i
      = Some (ok res) ∧
    TotalRequests res = c + Z.of_nat (S i) ∧
    RState res = (if c + Z.of_nat (S i) <=? Limit r then Allow else Deny).
Proof.
  induction sched as [|[a at_] rest IH]; intros i0 s c t L Hc Hadv Hwin Hlen i p Hi;
    [done|].
  apply Forall_cons in Hadv as [Ha Hrest]. cbn in Ha, Hwin, Hlen.
  assert (L' : live (Key r) (fast_forward a s) = Some (mkEntry (VInt c) (Some t))).
  { apply live_fast_forward_some; [|done].
    assert (0 <= foldr Z.add 0 (rest.*1)).
    { clear -Hrest. induction Hrest as [|q l Hq _ IHl]; cbn; lia. }
    lia. }
  cbn [Script.repeat_request fmap list_fmap Script.play Script.strategy_at Run
       Script.advance Script.at_time Script.request fst snd].
  rewrite (counter_run_kept at_ r _ c t L') by lia.
  cbn [w_store].
  destruct (Script.play Script.FixedWindow uuid (S i0)
              ((λ p0 : Z * Go.Time, Script.mkStep p0.1 p0.2 r) <$> rest)
              (put (Key r) (mkEntry (VInt (c + 1)) (Some t)) (fast_forward a s)))
    as [outs s'] eqn:P.
  cbn [fst]. destruct i as [|j].
  - cbn [lookup list_lookup].
    edestruct (decide_counter_nth at_ r (c + 1)) as (res & Hres & Ht & Hs);
      [|exists res; rewrite Hres].
    + lia.
    + replace (c + Z.of_nat 1) with (c + 1) by lia. done.
  - cbn in Hi. cbn [lookup list_lookup].
    specialize (IH (S i0) (put (Key r) (mkEntry (VInt (c + 1)) (Some t)) (fast_forward a s))
                   (c + 1) t).
    unfold Script.repeat_request in IH. rewrite P in IH. cbn [fst] in IH.
    destruct (IH (live_put_same _ _ _ (VInt (c + 1)) _ L')) with (i := j) (p := p)
      as (res & Hres & Ht & Hs); try done; try lia.
    { cbn. lia. }
    exists res. split; [done|].
    replace (c + Z.of_nat (S (S j))) with (c + 1 + Z.of_nat (S j)) by lia. done.
Qed.

(** C1. The same request is sent N times, without faults, to a key that is
    not in the store when the first call arrives; the store's clock never
    moves back and, after the first call, moves by less than the expiry
    that call set, so that the window stays open.  Then the call number
    i+1 returns a Result whose TotalRequests is i+1, with State Allow when
    i+1 is at most the limit and Deny when it is above: the count after
    the increment is the one compared. *)
Theorem nth_call_counts uuid r sched s i :
  live (Key r) s = None →
  0 < Duration r →
  Forall (λ p : Z * Go.Time, 0 <= p.1) sched →
  foldr Z.add 0 (tail (sched.*1)) < formatSec (Duration r) * 1000 →
  Z.of_nat (length sched) <= max_int64 →
  (i < length sched)%nat →
  ∃ res,
    (Script.play Script.FixedWindow uuid 0 (Script.repeat_request r sched) s).1 !! i
      = Some (ok res) ∧
    TotalRequests res = Z.of_nat (S i) ∧
    RState res = (if Z.of_nat (S i) <=? Limit r then Allow else Deny).
Proof.
  intros L HD Hadv Hwin Hlen Hi.
  destruct sched as [|[a at_] rest]; [cbn in Hi; lia|].
  apply Forall_cons in Hadv as [Ha Hrest]. cbn in Ha, Hwin, Hlen.
  pose proof (live_fast_forward_none _ a _ Ha L) as L0.
  pose proof (formatSec_pos _ HD) as HS.
  cbn [Script.repeat_request fmap list_fmap Script.play Script.strategy_at Run
       Script.advance Script.at_time Script.request fst snd].
  rewrite (counter_run_new at_ r _ L0 HD). cbn [w_store].
  set (t := clock (fast_forward a s) + formatSec (Duration r) * 1000).
  set (s1 := put (Key r) (mkEntry (VInt 1) (Some t))
               (put (Key r) (mkEntry (VInt 1) None) (fast_forward a s))).
  assert (L1 : live (Key r) s1 = Some (mkEntry (VInt 1) (Some t))).
  { subst s1. rewrite live_put. unfold expired. cbn -[formatSec].
    destruct (Z.leb_spec t (clock s + a)); [|done].
    subst t. cbn -[formatSec] in *. lia. }
  destruct (Script.play Script.FixedWindow uuid 1
              ((λ p0 : Z * Go.Time, Script.mkStep p0.1 p0.2 r) <$> rest) s1)
    as [outs s'] eqn:P.
  cbn [fst]. destruct i as [|j].
  - cbn [lookup list_lookup].
    edestruct (decide_counter_nth at_ r 1) as (res & Hres & Ht & Hs);
      [|exists res; rewrite Hres; done].
    unfold max_int64. lia.
  - cbn [lookup list_lookup]. cbn in Hi.
    destruct (lookup_lt_is_Some_2 rest j) as [p Hp]; [lia|].
    pose proof (play_counting uuid r rest 1%nat s1 1 t L1) as C.
    unfold Script.repeat_request in C. rewrite P in C. cbn [fst] in C.
    destruct (C ltac:(lia) Hrest) with (i := j) (p := p)
      as (res & Hres & Ht & Hs); try done.
    { subst s1 t. cbn -[formatSec]. lia. }
    { lia. }
    exists res. split; [done|].
    replace (Z.of_nat (S (S j))) with (1 + Z.of_nat (S j)) by lia. done.
Qed.

Lemma nth_call_counts_witness :
  ∃ res,
    (Script.play Script.FixedWindow (λ _, "") 0
       (Script.repeat_request (Sample.at_most 2)
          [(0, Sample.t0); (1000, Sample.t0 + Go.Second); (1000, Sample.t0 + 2 * Go.Second)])
       Sample.store0).1 !! 2%nat
      = Some (ok res) ∧
    TotalRequests res = 3 ∧
    RState res = Deny.
Proof.
  apply (nth_call_counts (λ _, "") (Sample.at_most 2)
           [(0, Sample.t0); (1000, Sample.t0 + Go.Second); (1000, Sample.t0 + 2 * Go.Second)]
           Sample.store0 2).
  - vm_compute. reflexivity.
  - reflexivity.
  - repeat constructor; discriminate.
  - vm_compute. reflexivity.
  - vm_compute. discriminate.
  - cbn. lia.
Defined.

(** ** C9 *)

Import Alike.

Lemma zmember_spec m zs : zmember m zs = true ↔ m ∈ zs.*1.
Proof.
  induction zs as [|[m' sc] zs IH]; cbn.
  - split; [discriminate | by intros ?%elem_of_nil].
  - rewrite elem_of_cons, orb_true_iff, IH, String.eqb_eq.
    split; (intros [?|?]; [left | right]); done.
Qed.

Lemma zcount_in_scores lo hi zs :
  zcount_in lo hi zs = Z.of_nat (length (List.filter (in_range lo hi) (zs.*2))).
Proof.
  unfold zcount_in. f_equal.
  induction zs as [|[m sc] zs IH]; [done|]. cbn.
  destruct (in_range lo hi sc); cbn; by rewrite IH.
Qed.

Lemma zkeep_scores lo hi zs :
  (zkeep lo hi zs).*2 = List.filter (λ x, negb (in_range lo hi x)) (zs.*2).
Proof.
  unfold zkeep.
  induction zs as [|[m sc] zs IH]; [done|]. cbn.
  destruct (in_range lo hi sc); cbn; by rewrite IH.
Qed.

Lemma zkeep_members lo hi zs m : m ∈ (zkeep lo hi zs).*1 → m ∈ zs.*1.
Proof.
  unfold zkeep. induction zs as [|[m' sc] zs IH]; [done|]. cbn.
  destruct (negb (in_range lo hi sc)); cbn; rewrite ?elem_of_cons; tauto.
Qed.

Lemma live_db k s e : live k s = Some e → db s !! k = Some e.
Proof.
  unfold live. destruct (db s !! k) as [e'|]; [|done].
  by destruct (expired (clock s) e'); [|intros [= <-]].
Qed.

Lemma live_alike k s1 s2 :
  alike s1 s2 → option_Forall2 entry_alike (live k s1) (live k s2).
Proof.
  intros [Hc Hdb]. unfold live. rewrite Hc.
  destruct (Hdb k) as [e1 e2 [Hv He] |]; [|constructor].
  assert (entry_alike e1 e2) by (by split).
  unfold expired. rewrite He.
  destruct (e_exp e2) as [t|]; [destruct (t <=? clock s2)|]; by constructor.
Qed.

Lemma put_alike k e1 e2 s1 s2 :
  alike s1 s2 → entry_alike e1 e2 → alike (put k e1 s1) (put k e2 s2).
Proof.
  intros [Hc Hdb] He. split; [done|]. intros k'. cbn.
  destruct (decide (k = k')) as [->|Hne].
  - rewrite !lookup_insert_eq. by constructor.
  - rewrite !lookup_insert_ne by done. apply Hdb.
Qed.

Lemma del_alike k s1 s2 : alike s1 s2 → alike (del k s1) (del k s2).
Proof.
  intros [Hc Hdb]. split; [done|]. intros k'. cbn.
  destruct (decide (k = k')) as [->|Hne].
  - rewrite !lookup_delete_eq. constructor.
  - rewrite !lookup_delete_ne by done. apply Hdb.
Qed.

Lemma fast_forward_alike a s1 s2 :
  alike s1 s2 → alike (fast_forward a s1) (fast_forward a s2).
Proof. intros [Hc Hdb]. split; [cbn; by rewrite Hc | done]. Qed.

Lemma members_from_mono uuid i s : members_from uuid i s → members_from uuid (S i) s.
Proof.
  intros H k e m Hk Hm. destruct (H k e m Hk Hm) as (j & Hj & ->). exists j. split; [lia | done].
Qed.

Lemma members_from_put uuid i k e s :
  members_from uuid i s →
  (∀ m, m ∈ members e → ∃ j, (j < i)%nat ∧ m = uuid j) →
  members_from uuid i (put k e s).
Proof.
  intros H He k' e' m. cbn.
  destruct (decide (k = k')) as [->|Hne].
  - rewrite lookup_insert_eq. intros [= <-]. apply He.
  - rewrite lookup_insert_ne by done. apply H.
Qed.

Lemma members_from_del uuid i k s : members_from uuid i s → members_from uuid i (del k s).
Proof.
  intros H k' e' m. cbn.
  destruct (decide (k = k')) as [->|Hne].
  - by rewrite lookup_delete_eq.
  - rewrite lookup_delete_ne by done. apply H.
Qed.

Lemma members_from_empty uuid : members_from uuid 0 Redis.empty.
Proof. intros k e m. cbn. by rewrite lookup_empty. Qed.

Lemma alike_refl s : alike s s.
Proof.
  split; [done|]. intros k. destruct (db s !! k) as [[[n|zs] exp]|]; by repeat constructor.
Qed.

(** A token that has not been drawn before is not in the store. *)
Lemma fresh_token uuid i k s zs exp :
  (∀ j, (j < i)%nat → uuid j ≠ uuid i) → members_from uuid i s →
  live k s = Some (mkEntry (VZSet zs) exp) →
  zmember (uuid i) zs = false.
Proof.
  intros Hinj H L. apply live_db in L.
  destruct (zmember (uuid i) zs) eqn:E; [|done].
  apply zmember_spec in E.
  destruct (H k _ (uuid i) L E) as (j & Hj & Hu). by destruct (Hinj j Hj).
Qed.

Ltac alike_cases k s1 s2 H :=
  let e1 := fresh "e1" in
  let e2 := fresh "e2" in
  let Hv := fresh "Hv" in
  let He := fresh "He" in
  let L1 := fresh "L1" in
  let L2 := fresh "L2" in
  pose proof (live_alike k s1 s2 H) as He;
  destruct (live k s1) as [[[?|?] ?]|] eqn:L1;
  destruct (live k s2) as [[[?|?] ?]|] eqn:L2;
  inversion He as [e1 e2 [Hv ?] |]; cbn in *; subst; try done.

Lemma zcount_alike k lo hi s1 s2 :
  alike s1 s2 → (zcount k lo hi s1).2 = (zcount k lo hi s2).2.
Proof.
  intros H. unfold zcount. alike_cases k s1 s2 H.
  by rewrite !zcount_in_scores, Hv.
Qed.

Lemma zcount_same k lo hi s : (zcount k lo hi s).1 = s.
Proof. exact (attempt_read false (ZCount k lo hi) s eq_refl). Qed.

Lemma zrem_alike k lo hi s1 s2 :
  alike s1 s2 →
  alike (zremrangebyscore k lo hi s1).1 (zremrangebyscore k lo hi s2).1 ∧
  (zremrangebyscore k lo hi s1).2 = (zremrangebyscore k lo hi s2).2.
Proof.
  intros H. unfold zremrangebyscore. alike_cases k s1 s2 H.
  pose proof (zkeep_scores lo hi zs) as K1.
  pose proof (zkeep_scores lo hi zs0) as K2.
  rewrite Hv, <- K2 in K1. rewrite !zcount_in_scores, Hv.
  destruct (zkeep lo hi zs) as [|p1 k1], (zkeep lo hi zs0) as [|p2 k2];
    try discriminate; cbn [fst snd]; (split; [|done]).
  - by apply del_alike.
  - apply put_alike; [done|]. by split.
Qed.

Lemma zrem_members uuid i k lo hi s :
  members_from uuid i s → members_from uuid i (zremrangebyscore k lo hi s).1.
Proof.
  intros H. unfold zremrangebyscore.
  destruct (live k s) as [[[n|zs] exp]|] eqn:L; [done| |done].
  destruct (zkeep lo hi zs) as [|p kept] eqn:K; cbn [fst].
  - by apply members_from_del.
  - apply members_from_put; [done|]. unfold members. cbn [e_val].
    intros m Hm. rewrite <- K in Hm. apply zkeep_members in Hm.
    apply live_db in L. by apply (H k _ m L).
Qed.

Lemma zadd_alike k sc m1 m2 s1 s2 :
  alike s1 s2 →
  (∀ zs exp, live k s1 = Some (mkEntry (VZSet zs) exp) → zmember m1 zs = false) →
  (∀ zs exp, live k s2 = Some (mkEntry (VZSet zs) exp) → zmember m2 zs = false) →
  alike (zadd k sc m1 s1).1 (zadd k sc m2 s2).1 ∧
  (zadd k sc m1 s1).2 = (zadd k sc m2 s2).2.
Proof.
  intros H F1 F2. unfold zadd. alike_cases k s1 s2 H.
  - rewrite (F1 _ _ eq_refl), (F2 _ _ eq_refl). split; [|done].
    apply put_alike; [done|]. split; [|done]. cbn.
    rewrite !zinsert_new by eauto. by rewrite !fmap_app, Hv.
  - split; [|done]. apply put_alike; [done|]. by split.
Qed.

Lemma zadd_members uuid i k sc s :
  members_from uuid i s → members_from uuid (S i) (zadd k sc (uuid i) s).1.
Proof.
  intros H. apply members_from_mono in H as H'. unfold zadd.
  destruct (live k s) as [[[n|zs] exp]|] eqn:L; cbn [fst]; [done|..];
    apply members_from_put; try done; unfold members; cbn [e_val].
  - intros m Hm. unfold zinsert in Hm.
    destruct (zmember (uuid i) zs) eqn:E.
    + assert (Hin : m ∈ zs.*1).
      { clear -Hm. induction zs as [|[m' sc'] zs IH]; [done|]. cbn in *.
        destruct (String.eqb m' (uuid i)); cbn in *; rewrite elem_of_cons in *;
          tauto. }
      apply live_db in L. by apply (H' k _ m L).
    + rewrite fmap_app, elem_of_app in Hm. destruct Hm as [Hm | Hm].
      * apply live_db in L. by apply (H' k _ m L).
      * cbn in Hm. apply list_elem_of_singleton in Hm as ->. exists i. split; [lia | done].
  - intros m Hm. cbn in Hm. apply list_elem_of_singleton in Hm as ->.
    exists i. split; [lia | done].
Qed.

(** One fault-free sliding-window call on two stores that differ in their
    tokens only, each run drawing a token of its own. *)
Lemma sorted_call_alike now r uuid1 uuid2 i s1 s2 :
  (∀ j, (j < i)%nat → uuid1 j ≠ uuid1 i) →
  (∀ j, (j < i)%nat → uuid2 j ≠ uuid2 i) →
  alike s1 s2 → members_from uuid1 i s1 → members_from uuid2 i s2 →
  let run1 := SortedSet.Run now (uuid1 i) SortedSet.no_faults r (fresh s1) in
  let run2 := SortedSet.Run now (uuid2 i) SortedSet.no_faults r (fresh s2) in
  run1.1 = run2.1 ∧
  alike (w_store run1.2) (w_store run2.2) ∧
  members_from uuid1 (S i) (w_store run1.2) ∧
  members_from uuid2 (S i) (w_store run2.2).
Proof.
  intros I1 I2 HA M1 M2 run1 run2.
  pose proof (sorted_run_spec now (uuid1 i) SortedSet.no_faults r (fresh s1)) as R1.
  pose proof (sorted_run_spec now (uuid2 i) SortedSet.no_faults r (fresh s2)) as R2.
  fold run1 in R1. fold run2 in R2.
  destruct run1 as [out1 w1], run2 as [out2 w2]. cbn [fst snd] in *.
  pose proof (zcount_alike (Key r) (Incl (SortedSet.windowStart now r))
                SortedSet.sortedSetMax s1 s2 HA)
    as Hpre.
  pose proof (zcount_same (Key r) (Incl (SortedSet.windowStart now r))
                SortedSet.sortedSetMax s1) as Hs1.
  pose proof (zcount_same (Key r) (Incl (SortedSet.windowStart now r))
                SortedSet.sortedSetMax s2) as Hs2.
  inversion R1 as [ a1 n1 Hp1 Hc1 | a1 rp1 b1 rr1 c1 ra1 d1 rc1 Hp1 Hc1 Hr1 Ha1 Hn1 ];
  inversion R2 as [ a2 n2 Hp2 Hc2 | a2 rp2 b2 rr2 c2 ra2 d2 rc2 Hp2 Hc2 Hr2 Ha2 Hn2 ];
    subst; cbn in Hp1, Hp2; rewrite Hp1 in Hpre, Hs1; rewrite Hp2 in Hpre, Hs2;
    cbn in Hpre, Hs1, Hs2; subst; cbn [w_store].
  - injection Hpre as ->. auto using members_from_mono.
  - specialize (Hc2 _ eq_refl). lia.
  - specialize (Hc1 _ eq_refl). lia.
  - cbn in Hr1, Hr2, Ha1, Ha2, Hn1, Hn2.
    destruct (zrem_alike (Key r) (Incl 0) (Incl (SortedSet.windowStart now r)) s1 s2 HA)
      as [HAb Hrr].
    rewrite Hr1, Hr2 in HAb, Hrr. cbn in HAb, Hrr. subst rr2.
    pose proof (zrem_members uuid1 i (Key r) (Incl 0)
                  (Incl (SortedSet.windowStart now r)) s1 M1) as M1b.
    pose proof (zrem_members uuid2 i (Key r) (Incl 0)
                  (Incl (SortedSet.windowStart now r)) s2 M2) as M2b.
    rewrite Hr1 in M1b. rewrite Hr2 in M2b. cbn in M1b, M2b.
    destruct (zadd_alike (Key r) (Go.UnixMilli now) (uuid1 i) (uuid2 i) b1 b2 HAb)
      as [HAc Hra]; eauto using fresh_token.
    rewrite Ha1, Ha2 in HAc, Hra. cbn in HAc, Hra. subst ra2.
    pose proof (zadd_members uuid1 i (Key r) (Go.UnixMilli now) b1 M1b) as M1c.
    pose proof (zadd_members uuid2 i (Key r) (Go.UnixMilli now) b2 M2b) as M2c.
    rewrite Ha1 in M1c. rewrite Ha2 in M2c. cbn in M1c, M2c.
    pose proof (zcount_alike (Key r) NegInf PosInf c1 c2 HAc) as Hrc.
    pose proof (zcount_same (Key r) NegInf PosInf c1) as Hd1.
    pose proof (zcount_same (Key r) NegInf PosInf c2) as Hd2.
    rewrite Hn1 in Hrc, Hd1. rewrite Hn2 in Hrc, Hd2. cbn in Hrc, Hd1, Hd2. subst.
    done.
Qed.

Lemma play_fixed_window_any_uuid uuid1 uuid2 script : ∀ i s,
  Script.play Script.FixedWindow uuid1 i script s
  = Script.play Script.FixedWindow uuid2 i script s.
Proof.
  induction script as [|st rest IH]; intros i s; [done|].
  cbn [Script.play Script.strategy_at].
  destruct (Run _ _ _ _) as [out w]. by rewrite IH.
Qed.

Lemma play_sliding_window_alike uuid1 uuid2 script :
  ∀ i s1 s2,
    (∀ i' j, (j < i' < i + length script)%nat → uuid1 j ≠ uuid1 i') →
    (∀ i' j, (j < i' < i + length script)%nat → uuid2 j ≠ uuid2 i') →
    alike s1 s2 → members_from uuid1 i s1 → members_from uuid2 i s2 →
    (Script.play Script.SlidingWindow uuid1 i script s1).1
    = (Script.play Script.SlidingWindow uuid2 i script s2).1.
Proof.
  induction script as [|st rest IH]; intros i s1 s2 I1 I2 HA M1 M2; [done|].
  cbn [Script.play Script.strategy_at Run]. cbn [length] in I1, I2.
  destruct (sorted_call_alike (Script.at_time st) (Script.request st) uuid1 uuid2 i
              (fast_forward (Script.advance st) s1) (fast_forward (Script.advance st) s2))
    as (Ho & HA' & M1' & M2'); auto using fast_forward_alike.
  { intros j Hj. apply I1. lia. }
  { intros j Hj. apply I2. lia. }
  destruct (SortedSet.Run _ (uuid1 i) _ _ _) as [out1 w1].
  destruct (SortedSet.Run _ (uuid2 i) _ _ _) as [out2 w2].
  cbn [fst snd] in *.
  assert (IH' : (Script.play Script.SlidingWindow uuid1 (S i) rest (w_store w1)).1
                = (Script.play Script.SlidingWindow uuid2 (S i) rest (w_store w2)).1).
  { apply IH; try done; intros i' j Hj; [apply I1 | apply I2]; lia. }
  destruct (Script.play _ uuid1 _ _ _) as [outs1 t1].
  destruct (Script.play _ uuid2 _ _ _) as [outs2 t2].
  cbn [fst] in *. by rewrite Ho, IH'.
Qed.

Lemma drawn_distinct (uuid : nat → string) n i j :
  NoDup (uuid <$> seq 0 n) → (j < i < n)%nat → uuid j ≠ uuid i.
Proof.
  intros ND Hj E.
  assert (Hl : ∀ x, (x < n)%nat → (uuid <$> seq 0 n) !! x = Some (uuid x)).
  { intros x Hx. by rewrite list_lookup_fmap, lookup_seq_lt. }
  assert (j = i); [|lia].
  eapply NoDup_lookup; [exact ND | apply Hl; lia | rewrite E; apply Hl; lia].
Qed.

(** C9. The same script of calls, each with its clock reading, key, limit
    and duration, played twice against a new store gives the same
    sequence of outcomes, Result by Result, for either strategy, whatever
    tokens the two runs draw, as long as no run draws a token twice. *)
Theorem same_script_same_results kind uuid1 uuid2 script :
  NoDup (uuid1 <$> seq 0 (length script)) →
  NoDup (uuid2 <$> seq 0 (length script)) →
  (Script.play kind uuid1 0 script Redis.empty).1
  = (Script.play kind uuid2 0 script Redis.empty).1.
Proof.
  intros I1 I2. destruct kind.
  - by rewrite (play_fixed_window_any_uuid uuid1 uuid2).
  - apply play_sliding_window_alike;
      eauto using alike_refl, members_from_empty, drawn_distinct.
Qed.

Lemma same_script_same_results_witness :
  (Script.play Script.SlidingWindow Sample.tokens_a 0 Sample.three_calls Redis.empty).1
  = (Script.play Script.SlidingWindow Sample.tokens_b 0 Sample.three_calls Redis.empty).1.
Proof.
  apply (same_script_same_results Script.SlidingWindow Sample.tokens_a Sample.tokens_b
           Sample.three_calls).
  - refine (bool_decide_unpack _ _). vm_compute. exact I.
  - refine (bool_decide_unpack _ _). vm_compute. exact I.
Defined.

(** ** The expectations of sorted_set_counter_test.go *)

(** "returns Allow for requests under limit" *)
Example test_allow_under_limit :
  Tests.lastResult Script.SlidingWindow 50 0
  = Some (ok (mkResult Allow 50 (Sample.t0 + Go.Minute))).
Proof. vm_compute. reflexivity. Qed.

(** "returns Deny for requests over limit" *)
Example test_deny_over_limit :
  Tests.lastResult Script.SlidingWindow 101 0
  = Some (ok (mkResult Deny 100 (Sample.t0 + Go.Minute))).
Proof. vm_compute. reflexivity. Qed.

(** "expires and starts again as it goes over the TTL": 100 calls one
    second apart; the last one sees the 59 calls of the last 59 seconds
    and itself, and expires at 10:18:09. *)
Example test_expires_and_starts_again :
  Tests.lastResult Script.SlidingWindow 100 Go.Second
  = Some (ok (mkResult Allow 60 (Sample.t0 + 159 * Go.Second))).
Proof. vm_compute. reflexivity. Qed.

(** ** Counters stay counters *)

Lemma fits_put k k' e s :
  fits_int64 k s →
  (k = k' → expired (clock s) e = false →
   match e_val e with
   | VInt n => 0 <= n
   | VZSet zs => Z.of_nat (length zs) < max_int64
   end) →
  fits_int64 k (put k' e s).
Proof.
  intros F He. unfold fits_int64. destruct (decide (k = k')) as [<-|Hne].
  - rewrite live_put. destruct (expired (clock s) e) eqn:X; [done|].
    specialize (He eq_refl eq_refl). by destruct e as [[n|zs] exp].
  - by rewrite live_put_ne.
Qed.

Lemma fits_del k k' s : fits_int64 k s → fits_int64 k (del k' s).
Proof.
  intros F. unfold fits_int64. destruct (decide (k = k')) as [<-|Hne].
  - by rewrite live_del.
  - by rewrite live_del_ne.
Qed.

(** A fixed-window call, with or without faults, keeps every key within
    [fits_int64]: starting from a new store, the counters it builds are
    never negative. *)
Lemma counter_run_keeps_fit now f r s k :
  fits_int64 k s → fits_int64 k (w_store (Counter.Run now f r (fresh s)).2).
Proof.
  intros F.
  assert (Hi : ∀ fl, fits_int64 k (attempt fl (Incr (Key r)) s).1).
  { intros [|]; [done|]. cbn. unfold incr.
    destruct (live (Key r) s) as [[[n|zs] exp]|] eqn:L; cbn; [|done|].
    - destruct (n <? max_int64); [|done]. apply fits_put; [done|]. cbn.
      intros -> _. unfold fits_int64 in F. rewrite L in F. lia.
    - apply fits_put; [done|]. cbn. lia. }
  assert (He : ∀ fl s', fits_int64 k s' →
                 fits_int64 k (attempt fl (Expire (Key r) (Duration r)) s').1).
  { intros [|] s' F'; [done|]. cbn. unfold expire.
    destruct (live (Key r) s') as [e|] eqn:L; [|done].
    destruct (formatSec (Duration r) <=? 0); cbn; [by apply fits_del|].
    apply fits_put; [done|]. cbn. intros -> _.
    unfold fits_int64 in F'. rewrite L in F'. by destruct e as [[n|zs] exp]. }
  assert (Ht : ∀ fl s', (attempt fl (TTL (Key r)) s').1 = s').
  { intros. by apply attempt_read. }
  pose proof (counter_run_spec now f r (fresh s)) as S.
  destruct (Counter.Run now f r (fresh s)) as [out w']. cbn [fst snd] in *.
  inversion S as [ s1 ri s2 rt E1 E2 | s1 s2 rt E1 E2 | s1 n s2 d E1 E2
                 | s1 n s2 rt s3 E1 E2 Hx Hrt E3 | s1 n s2 rt s3 b E1 E2 Hx Hrt E3 ];
    subst; cbn [w_store fresh] in *;
    specialize (Hi (Counter.f_incr f)); rewrite E1 in Hi; cbn in Hi;
    specialize (Ht (Counter.f_ttl f) s1); rewrite E2 in Ht; cbn in Ht; subst s2;
    try done;
    specialize (He (Counter.f_expire f) s1 Hi); rewrite E3 in He; done.
Qed.

(** * Further properties of the two strategies *)

Import Keys.

(** ** A call and the other keys *)

Lemma apply_frame c s k :
  key_of c ≠ k →
  db (apply c s).1 !! k = db s !! k ∧ clock (apply c s).1 = clock s.
Proof.
  intros Hk. destruct c as [k0|k0|k0 d|k0 lo hi|k0 lo hi|k0 sc m]; cbn in Hk |- *.
  - unfold incr. destruct (live k0 s) as [[[n|zs] exp]|];
      [destruct (n <? max_int64)|..]; cbn; rewrite ?lookup_insert_ne; done.
  - unfold ttl. destruct (live k0 s) as [e|]; [destruct (e_exp e)|]; done.
  - unfold expire. destruct (live k0 s) as [e|]; [destruct (formatSec d <=? 0)|];
      cbn; rewrite ?lookup_insert_ne, ?lookup_delete_ne; done.
  - unfold zcount. by destruct (live k0 s) as [[[n|zs] exp]|].
  - unfold zremrangebyscore.
    destruct (live k0 s) as [[[n|zs] exp]|]; [|destruct (zkeep lo hi zs)|];
      cbn; rewrite ?lookup_insert_ne, ?lookup_delete_ne; done.
  - unfold zadd. destruct (live k0 s) as [[[n|zs] exp]|];
      cbn; rewrite ?lookup_insert_ne; done.
Qed.

Lemma attempt_frame fl c s s' rp k :
  attempt fl c s = (s', rp) → key_of c ≠ k →
  db s' !! k = db s !! k ∧ clock s' = clock s.
Proof.
  unfold attempt. destruct fl; [by intros [= <- <-]|].
  intros E Hk. pose proof (apply_frame c s k Hk) as F. by rewrite E in F.
Qed.

(** X1. A call of either strategy, with or without faults, leaves every
    key other than the key of its request exactly as it was, and does not
    touch the clock of the store. *)
Theorem run_leaves_other_keys st now r s k :
  k ≠ Key r →
  db (w_store (Run st now r (fresh s)).2) !! k = db s !! k ∧
  clock (w_store (Run st now r (fresh s)).2) = clock s.
Proof.
  intros Hk. destruct st as [f | item f]; cbn [Run].
  - pose proof (counter_run_spec now f r (fresh s)) as S.
    destruct (Counter.Run now f r (fresh s)) as [out w']. cbn [fst snd] in *.
    inversion S; subst; cbn [w_store fresh] in *;
      repeat match goal with
      | H : attempt _ _ _ = _ |- _ =>
          apply (λ E, attempt_frame _ _ _ _ _ k E) in H as [? ?]; [|by cbn]
      end; split; congruence.
  - pose proof (sorted_run_spec now item f r (fresh s)) as S.
    destruct (SortedSet.Run now item f r (fresh s)) as [out w']. cbn [fst snd] in *.
    inversion S; subst; cbn [w_store fresh] in *;
      repeat match goal with
      | H : attempt _ _ _ = _ |- _ =>
          apply (λ E, attempt_frame _ _ _ _ _ k E) in H as [? ?]; [|by cbn]
      end; split; congruence.
Qed.

Lemma run_leaves_other_keys_witness :
  db (w_store (Run (sortedSetCounter "token" SortedSet.no_faults) Sample.t0
                 (mkRequest "other-user" 100 Go.Minute)
                 (fresh (Sample.one_entry 1000))).2) !! "some-user"
    = db (Sample.one_entry 1000) !! "some-user" ∧
  clock (w_store (Run (sortedSetCounter "token" SortedSet.no_faults) Sample.t0
                    (mkRequest "other-user" 100 Go.Minute)
                    (fresh (Sample.one_entry 1000))).2)
    = clock (Sample.one_entry 1000).
Proof.
  apply (run_leaves_other_keys (sortedSetCounter "token" SortedSet.no_faults) Sample.t0
           (mkRequest "other-user" 100 Go.Minute) (Sample.one_entry 1000) "some-user").
  discriminate.
Defined.

(** ** The fixed window: what is counted, and until when *)

Lemma counter_of_live k s n exp :
  live k s = Some (mkEntry (VInt n) exp) → counter_of k s = Some n.
Proof. unfold counter_of. by intros ->. Qed.

Lemma incr_counts k s s' n :
  fits_int64 k s → incr k s = (s', Some n) →
  n = default 0 (counter_of k s) + 1 ∧ 1 <= n <= max_int64.
Proof.
  intros F Hi. apply incr_ok in Hi as (_ & exp & _ & Hnew & Hold).
  unfold fits_int64, counter_of in *.
  destruct (live k s) as [[[c|zs] ex]|] eqn:L.
  - destruct (Hold _ eq_refl) as (_ & [= Hc] & Hlt). subst c. cbn. lia.
  - by destruct (Hold _ eq_refl) as (_ & ? & _).
  - destruct (Hnew eq_refl) as [_ ->]. cbn. unfold max_int64. lia.
Qed.

Lemma expire_keeps_counter k d s s' b n exp :
  0 < d → live k s = Some (mkEntry (VInt n) exp) →
  expire k d s = (s', Some b) →
  live k s' = Some (mkEntry (VInt n) (Some (clock s + formatSec d * 1000))).
Proof.
  intros Hd L. pose proof (formatSec_pos _ Hd) as HS.
  unfold expire. rewrite L. destruct (Z.leb_spec (formatSec d) 0); [lia|].
  intros [= <- <-]. rewrite live_put. unfold expired. cbn -[formatSec].
  by destruct (Z.leb_spec (clock s + formatSec d * 1000) (clock s)); [lia|].
Qed.

(** X2. The fixed window counts every request, admitted or not: whenever a
    call with a positive duration returns a Result, Allow or Deny, its
    TotalRequests is what the key held before plus one, and that is what
    the key holds after the call. *)
Theorem denied_requests_are_counted now f r s res w' :
  fits_int64 (Key r) s →
  0 < Duration r →
  Counter.Run now f r (fresh s) = (ok res, w') →
  TotalRequests res = default 0 (counter_of (Key r) s) + 1 ∧
  counter_of (Key r) (w_store w') = Some (TotalRequests res).
Proof.
  intros F HD HR. apply Counter_Run_inv in HR. cbn [fresh w_store w_log] in HR.
  inversion HR as [ | | s1 n s2 d Hi Ht Hx Hd Ho | | s1 n s2 rt s3 b Hi Ht Hx Hrt He Ho ];
    subst; cbn [w_store];
    apply decide_counter_result in Ho as (_ & HT & _);
    pose proof (attempt_read (Counter.f_ttl f) (TTL (Key r)) s1 eq_refl) as Hs;
    rewrite Ht in Hs; cbn in Hs; subst s2;
    apply attempt_ok in Hi; cbn [apply] in Hi;
    destruct (incr_counts _ _ _ _ F Hi) as [Hn Hb];
    apply incr_ok in Hi as (_ & exp & L1 & _);
    rewrite HT, to_uint64_small by lia; (split; [done|]).
  - by apply counter_of_live in L1.
  - apply attempt_ok in He. cbn [apply] in He.
    by apply (expire_keeps_counter _ _ _ _ _ _ _ HD L1), counter_of_live in He.
Qed.

Lemma denied_requests_are_counted_witness :
  TotalRequests (mkResult Deny 1 (Sample.t0 + Go.Minute))
    = default 0 (counter_of "some-user" Sample.store0) + 1 ∧
  counter_of "some-user"
    (w_store (Counter.Run Sample.t0 Counter.no_faults (Sample.at_most 0)
                (fresh Sample.store0)).2)
    = Some (TotalRequests (mkResult Deny 1 (Sample.t0 + Go.Minute))).
Proof.
  apply (denied_requests_are_counted Sample.t0 Counter.no_faults (Sample.at_most 0)
           Sample.store0 (mkResult Deny 1 (Sample.t0 + Go.Minute))).
  - vm_compute. exact I.
  - reflexivity.
  - vm_compute. reflexivity.
Defined.

Lemma gone_not_live k s : gone k s → live k s = None.
Proof.
  unfold live, expired. intros [-> | (e & t & -> & -> & Ht)]; [done|].
  by destruct (Z.leb_spec t (clock s)); [|lia].
Qed.

(** X3. Once the key is gone, because it was never there or because its
    deadline has passed, a fault-free fixed-window call with a positive
    duration starts a new window: it reports one request, admits it when
    the limit is at least one, says the window ends a Duration from now,
    and leaves the counter at one with a deadline of that many whole
    seconds on the store's clock. *)
Theorem window_restarts_when_key_is_gone now r s :
  gone (Key r) s →
  0 < Duration r →
  (Counter.Run now Counter.no_faults r (fresh s)).1
    = ok (mkResult (if 1 <=? Limit r then Allow else Deny) 1 (Go.Add now (Duration r))) ∧
  live (Key r) (w_store (Counter.Run now Counter.no_faults r (fresh s)).2)
    = Some (mkEntry (VInt 1) (Some (clock s + formatSec (Duration r) * 1000))).
Proof.
  intros G HD. apply gone_not_live in G.
  rewrite (counter_run_new now r s G HD). cbn [fst snd w_store]. split.
  - unfold Counter.decide_. change (Go.to_uint64 1) with 1.
    by destruct (Z.ltb_spec (Limit r) 1), (Z.leb_spec 1 (Limit r)); try lia.
  - pose proof (formatSec_pos _ HD). rewrite live_put. unfold expired.
    cbn -[formatSec].
    by destruct (Z.leb_spec (clock s + formatSec (Duration r) * 1000) (clock s)); [lia|].
Qed.

Lemma window_restarts_when_key_is_gone_witness :
  (Counter.Run Sample.t0 Counter.no_faults Sample.some_user (fresh Sample.store0)).1
    = ok (mkResult (if 1 <=? 100 then Allow else Deny) 1 (Go.Add Sample.t0 Go.Minute)) ∧
  live "some-user"
    (w_store (Counter.Run Sample.t0 Counter.no_faults Sample.some_user
                (fresh Sample.store0)).2)
    = Some (mkEntry (VInt 1)
              (Some (clock Sample.store0 + formatSec Go.Minute * 1000))).
Proof.
  apply (window_restarts_when_key_is_gone Sample.t0 Sample.some_user Sample.store0).
  - left. reflexivity.
  - reflexivity.
Defined.

Lemma formatSec_nonpos d : d <= 0 → formatSec d <= 0.
Proof.
  intros Hd. unfold formatSec, Go.Second.
  destruct (Z.ltb_spec 0 d); [lia|]. cbn [andb].
  apply Z.quot_le_upper_bound; lia.
Qed.

(** A fault-free call with a duration that is not positive, on a key that
    is not there: the counter is created and deleted again. *)
Lemma counter_run_vanishing now r s :
  live (Key r) s = None →
  Duration r <= 0 →
  Counter.Run now Counter.no_faults r (fresh s) =
    (Counter.decide_ now r 1 (Duration r),
     mkWorld (del (Key r) (put (Key r) (mkEntry (VInt 1) None) s))
       [Batch false [(Incr (Key r), Some 1); (TTL (Key r), Some (-1))];
        Single (Expire (Key r) (Duration r)) (Some 1)]).
Proof.
  intros L HD. pose proof (formatSec_nonpos _ HD) as HS.
  unfold Counter.Run. unfold_monad. cbn -[Counter.decide_ Z.eqb incr ttl expire].
  unfold incr. rewrite L. unfold ttl. rewrite live_put_forever.
  cbn -[Counter.decide_ expire]. unfold expire. rewrite live_put_forever.
  destruct (Z.leb_spec (formatSec (Duration r)) 0); [|lia]. reflexivity.
Qed.

(** X4. With a duration that is not positive the fixed window counts
    nothing: the EXPIRE of each call deletes the counter the INCR of the
    same call has created, so that every call of a fault-free run on a
    key that was not in the store reports one request, and none is denied
    under a limit of one or more. *)
Theorem nonpositive_duration_counts_nothing uuid r sched s i :
  Duration r <= 0 →
  db s !! Key r = None →
  (i < length sched)%nat →
  ∃ res,
    (Script.play Script.FixedWindow uuid 0 (Script.repeat_request r sched) s).1 !! i
      = Some (ok res) ∧
    TotalRequests res = 1 ∧
    RState res = (if 1 <=? Limit r then Allow else Deny).
Proof.
  intros HD. generalize 0%nat as i0. revert s i.
  induction sched as [|[a at_] rest IH]; intros s i i0 Hk Hi; [cbn in Hi; lia|].
  assert (L0 : live (Key r) (fast_forward a s) = None).
  { unfold live, fast_forward. cbn. by rewrite Hk. }
  cbn [Script.repeat_request fmap list_fmap Script.play Script.strategy_at Run
       Script.advance Script.at_time Script.request fst snd].
  rewrite (counter_run_vanishing at_ r _ L0 HD). cbn [w_store].
  set (s1 := del (Key r) (put (Key r) (mkEntry (VInt 1) None) (fast_forward a s))).
  assert (Hk1 : db s1 !! Key r = None) by (subst s1; cbn; apply lookup_delete_eq).
  specialize (IH s1). unfold Script.repeat_request in IH.
  destruct (Script.play Script.FixedWindow uuid (S i0)
              ((λ p0 : Z * Go.Time, Script.mkStep p0.1 p0.2 r) <$> rest) s1)
    as [outs s'] eqn:P.
  cbn [fst]. destruct i as [|j]; cbn [lookup list_lookup].
  - edestruct (decide_counter_nth at_ r 1) as (res & Hres & Ht & Hs);
      [|exists res; rewrite Hres; done].
    unfold max_int64. lia.
  - specialize (IH j (S i0) Hk1). rewrite P in IH. apply IH. cbn in Hi. lia.
Qed.

Lemma nonpositive_duration_counts_nothing_witness :
  ∃ res,
    (Script.play Script.FixedWindow (λ _, "") 0
       (Script.repeat_request (mkRequest "some-user" 1 0)
          [(0, Sample.t0); (0, Sample.t0); (0, Sample.t0)])
       Sample.store0).1 !! 2%nat
      = Some (ok res) ∧
    TotalRequests res = 1 ∧
    RState res = (if 1 <=? 1 then Allow else Deny).
Proof.
  apply (nonpositive_duration_counts_nothing (λ _, "") (mkRequest "some-user" 1 0)
           [(0, Sample.t0); (0, Sample.t0); (0, Sample.t0)] Sample.store0 2).
  - cbn. lia.
  - reflexivity.
  - cbn. lia.
Defined.

(** X5. The window is fixed: a fault-free call on a counter whose deadline
    has not passed increments the counter, sends no EXPIRE and leaves the
    deadline where it was, so that requests inside a window never move its
    end; the ExpiresAt it reports is not before the current time. *)
Theorem open_window_keeps_its_deadline now r s c t res w' :
  live (Key r) s = Some (mkEntry (VInt c) (Some t)) →
  c < max_int64 →
  Counter.Run now Counter.no_faults r (fresh s) = (ok res, w') →
  live (Key r) (w_store w') = Some (mkEntry (VInt (c + 1)) (Some t)) ∧
  existsb is_expire (issued w') = false ∧
  now <= ExpiresAt res.
Proof.
  intros L Hc HR. rewrite (counter_run_kept now r s c t L Hc) in HR.
  injection HR as HR <-. apply decide_counter_result in HR as (_ & _ & HE & _).
  pose proof (live_not_expired _ _ _ L) as X. unfold expired in X. cbn in X.
  apply Z.leb_gt in X. pose proof (ttl_nonneg _ _ X) as Hd.
  cbn [w_store]. split; [by apply (live_put_same _ _ _ _ _ L)|].
  split; [reflexivity|]. rewrite HE. unfold Go.Add. lia.
Qed.

Lemma open_window_keeps_its_deadline_witness :
  live "some-user"
    (w_store (Counter.Run Sample.t0 Counter.no_faults Sample.some_user
                (fresh (put "some-user" (mkEntry (VInt 5) (Some 29600)) Redis.empty))).2)
    = Some (mkEntry (VInt (5 + 1)) (Some 29600)) ∧
  existsb is_expire
    (issued (Counter.Run Sample.t0 Counter.no_faults Sample.some_user
               (fresh (put "some-user" (mkEntry (VInt 5) (Some 29600)) Redis.empty))).2)
    = false ∧
  Sample.t0 <= ExpiresAt (mkResult Allow 6 (Sample.t0 + 30 * Go.Second)).
Proof.
  apply (open_window_keeps_its_deadline Sample.t0 Sample.some_user
           (put "some-user" (mkEntry (VInt 5) (Some 29600)) Redis.empty) 5 29600
           (mkResult Allow 6 (Sample.t0 + 30 * Go.Second))
           (Counter.Run Sample.t0 Counter.no_faults Sample.some_user
              (fresh (put "some-user" (mkEntry (VInt 5) (Some 29600)) Redis.empty))).2).
  - vm_compute. reflexivity.
  - vm_compute. reflexivity.
  - vm_compute. reflexivity.
Defined.

(** ** One key, two strategies *)

(** X6. The two strategies cannot share a key: a fixed-window call on a
    key that holds a sorted set, and a sliding-window call on a key that
    holds a counter, return an error that names the key, whatever the
    faults, and leave the store exactly as it was. *)
Theorem strategies_do_not_share_keys st now r s :
  foreign st (Key r) s →
  (∃ what, (Run st now r (fresh s)).1 = fail what (Key r)) ∧
  w_store (Run st now r (fresh s)).2 = s.
Proof.
  intros HF.
  assert (Hleft : ∀ fl c s0 s' rp,
            attempt fl c s0 = (s', rp) → rp = None ∨ is_write c = false → s' = s0).
  { intros fl c s0 s' rp E [-> | Hw].
    - by apply attempt_failed in E.
    - pose proof (attempt_read fl c s0 Hw) as X. by rewrite E in X. }
  destruct st as [f | item f]; cbn [Run foreign] in *.
  - destruct HF as (zs & exp & L).
    assert (Hno : ∀ s1 ri, attempt (Counter.f_incr f) (Incr (Key r)) s = (s1, ri) →
                           ri = None).
    { unfold attempt. destruct (Counter.f_incr f); [by intros ?? [= _ <-]|].
      cbn. unfold incr. rewrite L. by intros ?? [= _ <-]. }
    pose proof (counter_run_spec now f r (fresh s)) as S.
    destruct (Counter.Run now f r (fresh s)) as [out w']. cbn [fst snd] in *.
    inversion S as [ s1 ri s2 rt E1 E2 | s1 s2 rt E1 E2 | s1 n s2 d E1 E2
                   | s1 n s2 rt s3 E1 E2 | s1 n s2 rt s3 b E1 E2 ];
      subst; cbn [w_store fresh] in *; pose proof (Hno _ _ E1) as Hri;
      try discriminate; subst;
      (apply Hleft in E1; [|by left]); subst s1;
      (apply Hleft in E2; [|by right]); subst s2; eauto.
  - destruct HF as (n & exp & L).
    assert (Hno : ∀ fl c s1 rp, attempt fl c s = (s1, rp) →
                  match c with
                  | ZCount k _ _ | ZRemRangeByScore k _ _ | ZAdd k _ _ => k = Key r
                  | _ => False
                  end → rp = None).
    { intros fl c s1 rp. unfold attempt. destruct fl; [by intros [= _ <-]|].
      destruct c; cbn; try done; intros E ->; revert E.
      - unfold zcount. rewrite L. by intros [= _ <-].
      - unfold zremrangebyscore. rewrite L. by intros [= _ <-].
      - unfold zadd. rewrite L. by intros [= _ <-]. }
    pose proof (sorted_run_spec now item f r (fresh s)) as S.
    destruct (SortedSet.Run now item f r (fresh s)) as [out w']. cbn [fst snd] in *.
    inversion S as [ s1 c Hp Hc | s1 rp s2 rr s3 ra s4 rc Hp Hc H1 H2 H3 ];
      subst; cbn [w_store fresh] in *.
    + by apply Hno in Hp.
    + pose proof (Hno _ _ _ _ Hp eq_refl) as ->.
      apply Hleft in Hp; [|by left]. subst s1.
      pose proof (Hno _ _ _ _ H1 eq_refl) as ->.
      apply Hleft in H1; [|by left]. subst s2.
      pose proof (Hno _ _ _ _ H2 eq_refl) as ->.
      apply Hleft in H2; [|by left]. subst s3.
      pose proof (Hno _ _ _ _ H3 eq_refl) as ->.
      apply Hleft in H3; [|by left]. subst s4.
      split; [|done]. unfold mutate_outcome.
      destruct (SortedSet.f_exec f); eauto.
Qed.

Lemma strategies_do_not_share_keys_witness :
  (∃ what, (Run (counterStrategy Counter.no_faults) Sample.t0 Sample.some_user
              (fresh (Sample.one_entry 1000))).1 = fail what "some-user") ∧
  w_store (Run (counterStrategy Counter.no_faults) Sample.t0 Sample.some_user
             (fresh (Sample.one_entry 1000))).2 = Sample.one_entry 1000.
Proof.
  apply (strategies_do_not_share_keys (counterStrategy Counter.no_faults) Sample.t0
           Sample.some_user (Sample.one_entry 1000)).
  eexists _, _. vm_compute. reflexivity.
Defined.

(** ** The sliding window: who is admitted, and how large the set gets *)

Lemma zrem_some k lo hi s :
  counter_of k s = None →
  ∃ s' a, zremrangebyscore k lo hi s = (s', Some a) ∧ counter_of k s' = None.
Proof.
  intros Hc. destruct (zremrangebyscore k lo hi s) as [s' [a|]] eqn:E.
  - apply zrem_ok in E as E'. destruct E' as [_ ?]. eauto.
  - exfalso. unfold zremrangebyscore, counter_of in *.
    destruct (live k s) as [[[n|zs] exp]|]; [done|destruct (zkeep lo hi zs)|]; done.
Qed.

Lemma zadd_some k sc m s :
  counter_of k s = None → ∃ s' b, zadd k sc m s = (s', Some b).
Proof.
  intros Hc. unfold zadd, counter_of in *.
  destruct (live k s) as [[[n|zs] exp]|]; [done|..]; eauto.
Qed.

Lemma zcount_some k lo hi s :
  counter_of k s = None → zcount k lo hi s = (s, Some (zcount_in lo hi (zset_of k s))).
Proof.
  intros Hc. unfold zcount, counter_of, zset_of in *.
  by destruct (live k s) as [[[n|zs] exp]|].
Qed.

Lemma zmember_zkeep m lo hi zs : zmember m zs = false → zmember m (zkeep lo hi zs) = false.
Proof.
  intros H. destruct (zmember m (zkeep lo hi zs)) eqn:E; [|done].
  apply zmember_spec, zkeep_members, zmember_spec in E. congruence.
Qed.

Lemma zkeep_after_epoch ws zs :
  Forall (λ p : string * Z, 0 <= p.2) zs →
  zkeep (Incl 0) (Incl ws) zs = List.filter (λ p : string * Z, ws <? p.2) zs.
Proof.
  intros H. rewrite zkeep_window.
  induction H as [|[m sc] zs Hsc _ IH]; [done|]. cbn in *. rewrite IH.
  by destruct (Z.ltb_spec sc 0); [lia|].
Qed.

(** The whole of a fault-free sliding-window call that is not denied by
    its first count. *)
Lemma sorted_run_admitted now item r s :
  counter_of (Key r) s = None →
  Go.to_uint64 (zcount_in (Incl (SortedSet.windowStart now r)) PosInf (zset_of (Key r) s))
    < Limit r →
  ∃ m, (SortedSet.Run now item SortedSet.no_faults r (fresh s)).1
         = SortedSet.decide_ now r m ∧
       m = zcard (Key r) (w_store (SortedSet.Run now item SortedSet.no_faults r (fresh s)).2) ∧
       zset_of (Key r) (w_store (SortedSet.Run now item SortedSet.no_faults r (fresh s)).2)
         = zinsert item (Go.UnixMilli now)
             (zkeep (Incl 0) (Incl (SortedSet.windowStart now r)) (zset_of (Key r) s)).
Proof.
  intros Hc Hn.
  pose proof (sorted_run_spec now item SortedSet.no_faults r (fresh s)) as S.
  destruct (SortedSet.Run now item SortedSet.no_faults r (fresh s)) as [out w'].
  cbn [fst snd] in *.
  pose proof (zcount_some (Key r) (Incl (SortedSet.windowStart now r)) PosInf s Hc) as Hpre.
  inversion S as [ s1 c Hp Hle | s1 rp s2 rr s3 ra s4 rc Hp Hlt H1 H2 H3 ];
    subst; cbn [w_store fresh] in *; cbn in Hp;
    change SortedSet.sortedSetMax with PosInf in Hp; rewrite Hpre in Hp.
  - injection Hp as <- <-. lia.
  - injection Hp as <- <-.
    destruct (zrem_some (Key r) (Incl 0) (Incl (SortedSet.windowStart now r)) s Hc)
      as (s2' & a & E1 & Hc2).
    assert (rr = Some a ∧ s2 = s2') as [-> ->] by (cbn in H1; rewrite E1 in H1; by injection H1).
    destruct (zadd_some (Key r) (Go.UnixMilli now) item s2' Hc2) as (s3' & b & E2).
    assert (ra = Some b ∧ s3 = s3') as [-> ->] by (cbn in H2; rewrite E2 in H2; by injection H2).
    destruct rc as [m|].
    2:{ exfalso. apply attempt_ok in H1, H2. cbn in H1, H2, H3.
        apply zadd_ok in H2 as [_ (exp & L3)].
        unfold zcount in H3. rewrite L3 in H3. discriminate. }
    destruct (batch_ok _ _ _ _ _ _ _ _ _ _ _ H1 H2 H3) as [Hz Hm].
    exists m. cbn [mutate_outcome SortedSet.f_exec SortedSet.no_faults]. done.
Qed.

(** X7. Who is admitted: on a key that holds no counter, fewer than 2^63
    entries and no score from before the epoch, a fault-free
    sliding-window call with a token that is not in the set yet is
    admitted exactly when fewer than Limit entries have a score of
    windowStart or more.  It then reports the entries scored above
    windowStart plus one, and the set holds those entries followed by the
    new token, scored with the current millisecond. *)
Theorem admitted_below_limit now item r s :
  counter_of (Key r) s = None →
  fits_int64 (Key r) s →
  after_epoch (Key r) s →
  zmember item (zset_of (Key r) s) = false →
  let ws := SortedSet.windowStart now r in
  let n := zcount_in (Incl ws) PosInf (zset_of (Key r) s) in
  let kept := List.filter (λ p : string * Z, ws <? p.2) (zset_of (Key r) s) in
  let run := SortedSet.Run now item SortedSet.no_faults r (fresh s) in
  (∀ res, run.1 = ok res → (RState res = Allow ↔ n < Limit r)) ∧
  (n < Limit r →
   run.1 = ok (mkResult Allow (Z.of_nat (length kept) + 1) (Go.Add now (Duration r))) ∧
   zset_of (Key r) (w_store run.2) = kept ++ [(item, Go.UnixMilli now)]).
Proof.
  intros Hc F E Hnew ws n kept run.
  assert (Hn : 0 <= n <= max_int64).
  { subst n. unfold zcount_in. apply fits_zset_bound in F.
    pose proof (List.filter_length_le
      (λ p : string * Z, in_range (Incl ws) PosInf p.2) (zset_of (Key r) s)). lia. }
  assert (Hadm : n < Limit r →
            run.1 = ok (mkResult Allow (Z.of_nat (length kept) + 1) (Go.Add now (Duration r))) ∧
            zset_of (Key r) (w_store run.2) = kept ++ [(item, Go.UnixMilli now)]).
  { intros Hlt.
    destruct (sorted_run_admitted now item r s Hc) as (m & Ho & Hm & Hz).
    { fold ws n. by rewrite to_uint64_small. }
    fold run in Ho, Hm, Hz. fold ws in Hz.
    rewrite (zkeep_after_epoch ws _ E) in Hz. fold kept in Hz.
    assert (Hk : zmember item kept = false).
    { subst kept. rewrite <- (zkeep_after_epoch ws _ E). by apply zmember_zkeep. }
    rewrite zinsert_new in Hz by done. split; [|done].
    unfold zcard in Hm. rewrite Hz, length_app in Hm. cbn in Hm.
    pose proof (zkeep_within_precheck ws _ E) as Hle. fold n in Hle.
    rewrite (zkeep_after_epoch ws _ E) in Hle. fold kept in Hle.
    assert (Hkb : Z.of_nat (length kept) < max_int64).
    { pose proof (fits_zset_bound _ _ F).
      pose proof (List.filter_length_le (λ p : string * Z, ws <? p.2)
                    (zset_of (Key r) s)). fold kept in H0. lia. }
    rewrite Ho. unfold SortedSet.decide_. rewrite to_uint64_small by lia.
    destruct (Z.ltb_spec (Limit r) m); [lia|]. do 3 f_equal. lia. }
  split; [|done].
  intros res Ho. destruct (Z.lt_ge_cases n (Limit r)) as [Hlt | Hge].
  - destruct (Hadm Hlt) as [Ho' _]. rewrite Ho' in Ho. injection Ho as <-. done.
  - pose proof (sorted_run_spec now item SortedSet.no_faults r (fresh s)) as S.
    fold run in S. destruct run as [out w']. cbn [fst snd] in *. subst out.
    pose proof (zcount_some (Key r) (Incl ws) PosInf s Hc) as Hpre. fold n in Hpre.
    inversion S as [ s1 c Hp Hle | s1 rp s2 rr s3 ra s4 rc Hp Hlt H1 H2 H3 ];
      subst; cbn [w_store fresh] in *; cbn in Hp;
      change SortedSet.sortedSetMax with PosInf in Hp; fold ws in Hp;
      rewrite Hpre in Hp; injection Hp as <- <-.
    + cbn. split; [discriminate | lia].
    + specialize (Hlt n eq_refl). rewrite to_uint64_small in Hlt by done. lia.
Qed.

Lemma admitted_below_limit_witness :
  let ws := SortedSet.windowStart Sample.t0 (Sample.at_most 2) in
  let n := zcount_in (Incl ws) PosInf (zset_of "some-user" (Sample.one_entry 1000)) in
  let kept :=
    List.filter (λ p : string * Z, ws <? p.2) (zset_of "some-user" (Sample.one_entry 1000)) in
  let run := SortedSet.Run Sample.t0 "token" SortedSet.no_faults (Sample.at_most 2)
               (fresh (Sample.one_entry 1000)) in
  (∀ res, run.1 = ok res → (RState res = Allow ↔ n < 2)) ∧
  (n < 2 →
   run.1 = ok (mkResult Allow (Z.of_nat (length kept) + 1) (Go.Add Sample.t0 Go.Minute)) ∧
   zset_of "some-user" (w_store run.2) = kept ++ [("token", Go.UnixMilli Sample.t0)]).
Proof.
  apply (admitted_below_limit Sample.t0 "token" (Sample.at_most 2) (Sample.one_entry 1000)).
  - vm_compute. reflexivity.
  - vm_compute. reflexivity.
  - vm_compute. repeat constructor. discriminate.
  - vm_compute. reflexivity.
Defined.

Lemma sets_within_live L k s : sets_within L s → live k s = db s !! k.
Proof.
  intros W. unfold live. destruct (db s !! k) as [e|] eqn:E; [|done].
  destruct (W k e E) as [He _]. unfold expired. by rewrite He.
Qed.

Lemma sets_within_put L k e s :
  sets_within L s →
  (e_exp e = None ∧
   ∃ zs, e_val e = VZSet zs ∧ Z.of_nat (length zs) <= L ∧
         Forall (λ p : string * Z, 0 <= p.2) zs) →
  sets_within L (put k e s).
Proof.
  intros W He k' e'. cbn. destruct (decide (k = k')) as [->|Hne].
  - rewrite lookup_insert_eq. by intros [= <-].
  - rewrite lookup_insert_ne by done. apply W.
Qed.

Lemma sets_within_del L k s : sets_within L s → sets_within L (del k s).
Proof.
  intros W k' e'. cbn. destruct (decide (k = k')) as [->|Hne].
  - by rewrite lookup_delete_eq.
  - rewrite lookup_delete_ne by done. apply W.
Qed.

Lemma sets_within_key L k s :
  sets_within L s →
  counter_of k s = None ∧ Z.of_nat (length (zset_of k s)) <= Z.max 0 L ∧
  after_epoch k s.
Proof.
  intros W. unfold counter_of, zset_of, after_epoch, zset_of.
  rewrite (sets_within_live L k s W).
  destruct (db s !! k) as [[v exp]|] eqn:E; [|cbn; repeat split; [lia | constructor]].
  destruct (W k _ E) as (_ & zs & Hv & Hl & Hs). cbn in Hv. subst v.
  repeat split; [lia | done].
Qed.

Lemma zrem_sets_within L k lo hi s :
  sets_within L s → sets_within L (zremrangebyscore k lo hi s).1.
Proof.
  intros W. unfold zremrangebyscore. rewrite (sets_within_live L k s W).
  destruct (db s !! k) as [[[n|zs] exp]|] eqn:E; [done| |done].
  destruct (W k _ E) as (He & zs' & [= <-] & Hl & Hs). cbn in He. subst exp.
  destruct (zkeep lo hi zs) as [|p kept] eqn:K; cbn [fst].
  - by apply sets_within_del.
  - apply sets_within_put; [done|]. split; [done|]. eexists. split; [done|].
    rewrite <- K. split.
    + pose proof (zkeep_length lo hi zs). lia.
    + unfold zkeep. clear -Hs.
      induction Hs as [|q l Hq _ IH]; [constructor|]. cbn.
      destruct (negb (in_range lo hi q.2)); [by constructor | done].
Qed.

Lemma zinsert_scores m sc zs :
  0 <= sc → Forall (λ p : string * Z, 0 <= p.2) zs →
  Forall (λ p : string * Z, 0 <= p.2) (zinsert m sc zs).
Proof.
  intros Hsc H. unfold zinsert. destruct (zmember m zs).
  - induction H as [|[m' sc'] zs Hp Htl IH]; [constructor|]. cbn.
    destruct (String.eqb m' m); constructor; done.
  - apply Forall_app. split; [done|]. by repeat constructor.
Qed.

Lemma zadd_sets_within L k sc m s :
  sets_within L s → Z.of_nat (length (zset_of k s)) < L → 0 <= sc →
  sets_within L (zadd k sc m s).1.
Proof.
  intros W Hl Hsc. unfold zadd, zset_of in *. rewrite (sets_within_live L k s W) in *.
  destruct (db s !! k) as [[[n|zs] exp]|] eqn:E; cbn [fst]; [done|..].
  - destruct (W k _ E) as (He & zs' & [= <-] & _ & Hs). cbn in He. subst exp.
    apply sets_within_put; [done|]. split; [done|]. eexists. split; [done|]. split.
    + pose proof (zinsert_length m sc zs). lia.
    + by apply zinsert_scores.
  - apply sets_within_put; [done|]. split; [done|]. eexists. split; [done|]. split.
    + cbn in *. lia.
    + by repeat constructor.
Qed.

(** One fault-free sliding-window call keeps the store within [L]. *)
Lemma sorted_run_sets_within L now item r s :
  L < max_int64 → 0 <= now → Limit r <= L →
  sets_within L s →
  sets_within L (w_store (SortedSet.Run now item SortedSet.no_faults r (fresh s)).2).
Proof.
  intros HL Hnow Hlim W.
  destruct (sets_within_key L (Key r) s W) as (Hc & Hlen & E).
  pose proof (sorted_run_spec now item SortedSet.no_faults r (fresh s)) as S.
  destruct (SortedSet.Run now item SortedSet.no_faults r (fresh s)) as [out w'].
  cbn [fst snd] in *.
  pose proof (zcount_some (Key r) (Incl (SortedSet.windowStart now r)) PosInf s Hc) as Hpre.
  inversion S as [ s1 c Hp Hle | s1 rp s2 rr s3 ra s4 rc Hp Hlt H1 H2 H3 ];
    subst; cbn [w_store fresh] in *; cbn in Hp;
    change SortedSet.sortedSetMax with PosInf in Hp; rewrite Hpre in Hp;
    injection Hp as <- <-; [done|].
  specialize (Hlt _ eq_refl).
  pose proof (zkeep_within_precheck (SortedSet.windowStart now r) _ E) as Hk.
  assert (Hmax : 0 < max_int64) by (unfold max_int64; lia).
  assert (Hb : 0 <= zcount_in (Incl (SortedSet.windowStart now r)) PosInf
                      (zset_of (Key r) s) <= max_int64).
  { unfold zcount_in.
    pose proof (List.filter_length_le
      (λ p : string * Z, in_range (Incl (SortedSet.windowStart now r)) PosInf p.2)
      (zset_of (Key r) s)). lia. }
  rewrite to_uint64_small in Hlt by done.
  cbn in H1, H2, H3.
  pose proof (zrem_sets_within L (Key r) (Incl 0) (Incl (SortedSet.windowStart now r)) s W)
    as W2.
  destruct (zrem_some (Key r) (Incl 0) (Incl (SortedSet.windowStart now r)) s Hc)
    as (s2' & a & E1 & Hc2).
  rewrite E1 in H1, W2. injection H1 as <- <-. cbn [fst] in W2.
  apply zrem_ok in E1 as [Hz2 _].
  pose proof (zadd_sets_within L (Key r) (Go.UnixMilli now) item s2' W2) as W3.
  rewrite Hz2 in W3.
  assert (0 <= Go.UnixMilli now) by (unfold Go.UnixMilli; apply Z.div_pos; lia).
  specialize (W3 ltac:(lia) ltac:(done)).
  rewrite H2 in W3. cbn [fst] in W3.
  pose proof (zcount_same (Key r) NegInf PosInf s3) as Hs.
  rewrite H3 in Hs. cbn in Hs. by subst s4.
Qed.

(** X8. The set of a client never outgrows the limit: in a fault-free run
    of sliding-window calls from a new store, with clock readings from
    the epoch on and limits of at most [L], no key ever holds more than
    [L] entries, however many requests are sent and however they are
    spread over keys and time. *)
Theorem sets_never_outgrow_the_limit uuid script L k :
  0 <= L < max_int64 →
  Forall (λ st, 0 <= Script.at_time st ∧ Limit (Script.request st) <= L) script →
  zcard k (Script.play Script.SlidingWindow uuid 0 script Redis.empty).2 <= L.
Proof.
  intros HL Hs.
  assert (W : sets_within L (Script.play Script.SlidingWindow uuid 0 script Redis.empty).2).
  { assert (W0 : sets_within L Redis.empty) by (intros ? ?; cbn; by rewrite lookup_empty).
    revert W0. generalize Redis.empty as s. generalize 0%nat as i.
    induction Hs as [|st rest [Hnow Hlim] _ IH]; intros i s W0; [done|].
    cbn [Script.play Script.strategy_at Run].
    pose proof (sorted_run_sets_within L (Script.at_time st) (uuid i) (Script.request st)
                  (fast_forward (Script.advance st) s) ltac:(lia) Hnow Hlim) as W1.
    destruct (SortedSet.Run _ _ _ _ _) as [out w]. cbn [snd] in W1.
    specialize (IH (S i) (w_store w)).
    destruct (Script.play _ _ _ _ _) as [outs s']. cbn [snd] in *.
    apply IH, W1. intros k' e'. cbn. apply W0. }
  destruct (sets_within_key L k _ W) as (_ & Hlen & _). unfold zcard. lia.
Qed.

Lemma sets_never_outgrow_the_limit_witness :
  zcard "some-user"
    (Script.play Script.SlidingWindow Tests.uuid 0 (Tests.script 101 0) Redis.empty).2
    <= 100.
Proof.
  apply (sets_never_outgrow_the_limit Tests.uuid (Tests.script 101 0) 100 "some-user").
  - unfold max_int64. lia.
  - apply Forall_forall. intros st Hst. unfold Tests.script in Hst.
    apply list_elem_of_fmap in Hst as (i & -> & _). cbn. split; [|lia].
    unfold Sample.t0, Go.Second. lia.
Defined.

(** X9. A request that is admitted is counted: whenever a call of either
    strategy returns Allow, on a key within the bounds of [fits_int64],
    its TotalRequests is at least one. *)
Theorem admitted_request_is_counted st now r s res w' :
  fits_int64 (Key r) s →
  Run st now r (fresh s) = (ok res, w') →
  RState res = Allow →
  1 <= TotalRequests res.
Proof.
  intros F HR HA. destruct st as [f | item f]; cbn [Run] in HR.
  - apply Counter_Run_inv in HR. cbn [fresh w_store w_log] in HR.
    inversion HR as [ | | s1 n s2 d Hi Ht Hx Hd Ho | | s1 n s2 rt s3 b Hi Ht Hx Hrt He Ho ];
      subst; apply attempt_ok in Hi; cbn [apply] in Hi;
      destruct (incr_counts _ _ _ _ F Hi) as [_ Hb];
      apply decide_counter_result in Ho as (_ & HT & _);
      rewrite HT, to_uint64_small; lia.
  - apply SortedSet_Run_inv in HR. cbn [fresh w_store w_log] in HR.
    inversion HR as [ s1 c Hp Hc | s1 rp s2 rr s3 ra s4 rc Hp Hc H1 H2 H3 Ho ];
      subst; cbn [w_store fresh] in Hp; [discriminate HA|].
    apply mutate_outcome_result in Ho as (_ & [a ->] & [b ->] & m & -> & Ho).
    pose proof (attempt_read (SortedSet.f_pre f) (SortedSet.precheck now r) s eq_refl)
      as Hs. rewrite Hp in Hs. cbn in Hs. subst s1.
    destruct (batch_ok _ _ _ _ _ _ _ _ _ _ _ H1 H2 H3) as [Hz Hm].
    unfold zcard in Hm. rewrite Hz in Hm.
    pose proof (batch_count_fits (Key r) s item (Go.UnixMilli now) (Incl 0)
                  (Incl (SortedSet.windowStart now r)) F) as Hb.
    apply decide_sorted_result in Ho as (_ & Ht & _).
    rewrite Ht, to_uint64_small; lia.
Qed.

Lemma admitted_request_is_counted_witness :
  1 <= TotalRequests (mkResult Allow 1 (Sample.t0 + Go.Minute)).
Proof.
  apply (admitted_request_is_counted (sortedSetCounter "token" SortedSet.no_faults)
           Sample.t0 Sample.some_user Sample.store0 _
           (Run (sortedSetCounter "token" SortedSet.no_faults) Sample.t0
                Sample.some_user (fresh Sample.store0)).2).
  - vm_compute. exact I.
  - vm_compute. reflexivity.
  - reflexivity.
Defined.

(** * The middleware *)

Import Http.

(** ** The expectations of the handler's test *)

(** "a request that is not rate limited": ten requests under a limit of
    fifty with the fixed window; the tenth reaches the wrapped handler
    with the headers set. *)
Example test_request_not_rate_limited :
  last (serve_n Script.FixedWindow 50 (from_address "10.10.10.10") Go.Second 0 10
          Redis.empty)
  = Some (Some [SetHeader "Rate-Limiting-Total-Requests" "10";
                SetHeader "Rate-Limiting-State" "Allow";
                SetHeader "Rate-Limiting-Expires-At"
                  (pretty (Sample.t0 + 9 * Go.Second + Go.Minute));
                Next]).
Proof. vm_compute. reflexivity. Qed.

(** "a request that is rate limited": fifty-five requests under a limit of
    fifty with the sliding window; the last one is answered 429 with a
    count of fifty. *)
Example test_request_rate_limited :
  (λ calls, (statuses calls, header_set rateLimitingState calls,
             header_set rateLimitingTotalRequests calls)) <$>
    default None
      (last (serve_n Script.SlidingWindow 50 (from_address "10.10.10.10") Go.Second 0 55
               Redis.empty))
  = Some ([429], Some "Deny", Some "50").
Proof. vm_compute. reflexivity. Qed.

(** "a request that fails because of missing headers" *)
Example test_request_missing_headers :
  serve_n Script.SlidingWindow 50
    (mkHttpRequest {[ "User-Agent" := ["Netscape Navigator"] ]}) Go.Second 0 1 Redis.empty
  = [Some [SetHeader "Content-Type" "text/plain";
           WriteHeader 400;
           Write ("failed to collect rate limiting key from request: " +:+
                  "the header X-Forwarded-For must have a value set")]].
Proof. vm_compute. reflexivity. Qed.

(** ** The extractor *)

Lemma string_app_assoc (a b c : string) : (a +:+ b) +:+ c = a +:+ (b +:+ c).
Proof.
  induction a as [|x a IH]; [done|].
  change (String x ((a +:+ b) +:+ c) = String x (a +:+ (b +:+ c))). by rewrite IH.
Qed.

Lemma string_app_nonempty (a b : string) : a ≠ "" → a +:+ b ≠ "".
Proof. by destruct a. Qed.

Lemma missing_header_text key :
  Sprintf "the header %v must have a value set" [key]
  = "the header " +:+ key +:+ " must have a value set".
Proof. reflexivity. Qed.

Section Extractor.

Context `{Platform}.

(** The trimmed value a request carries under a header. *)
Let trimmed (r : HttpRequest) (key : string) : string :=
  TrimSpace (Get (Header r) key).

Lemma collect_all keys r values :
  Forall (λ key, trimmed r key ≠ "") keys →
  collect keys r values = (String.concat "-" (values ++ (trimmed r <$> keys)), None).
Proof.
  revert values. induction keys as [|key rest IH]; intros values Hall; cbn.
  - by rewrite app_nil_r.
  - apply Forall_cons in Hall as [Hk Hrest]. fold (trimmed r key).
    destruct (String.eqb_spec (trimmed r key) ""); [done|].
    rewrite IH by done. by rewrite <- app_assoc.
Qed.

Lemma collect_missing pre key post r values :
  Forall (λ k, trimmed r k ≠ "") pre →
  trimmed r key = "" →
  collect (pre ++ key :: post) r values
  = ("", Some ("the header " +:+ key +:+ " must have a value set")).
Proof.
  revert values. induction pre as [|k pre IH]; intros values Hall Hk; cbn.
  - fold (trimmed r key). rewrite Hk. reflexivity.
  - apply Forall_cons in Hall as [Hk0 Hrest]. fold (trimmed r k).
    destruct (String.eqb_spec (trimmed r k) ""); [done|]. by apply IH.
Qed.

Lemma collect_none keys r values :
  (collect keys r values).2 = None → Forall (λ key, trimmed r key ≠ "") keys.
Proof.
  revert values. induction keys as [|key rest IH]; intros values Hn; [constructor|].
  cbn in Hn. fold (trimmed r key) in Hn.
  destruct (String.eqb_spec (trimmed r key) ""); [discriminate|].
  constructor; [done|]. by apply (IH _ Hn).
Qed.

(** X10. The extractor turns a request into a key exactly when every
    configured header has a value that is not empty once trimmed: the key
    is then the trimmed first values of the headers, in the order
    configured, joined by "-".  Otherwise it returns an empty key and an
    error that names the first header without a value. *)
Theorem extract_joins_the_trimmed_values keys r :
  (Forall (λ key, trimmed r key ≠ "") keys →
   NewHTTPHeadersExtractor keys r = (String.concat "-" (trimmed r <$> keys), None)) ∧
  (∀ pre key post,
     keys = pre ++ key :: post →
     Forall (λ k, trimmed r k ≠ "") pre →
     trimmed r key = "" →
     NewHTTPHeadersExtractor keys r
     = ("", Some ("the header " +:+ key +:+ " must have a value set"))) ∧
  ((NewHTTPHeadersExtractor keys r).2 = None ↔ Forall (λ key, trimmed r key ≠ "") keys).
Proof.
  unfold NewHTTPHeadersExtractor, Extract. cbn [headers].
  assert (Hall : Forall (λ key, trimmed r key ≠ "") keys →
                 collect keys r [] = (String.concat "-" (trimmed r <$> keys), None)).
  { intros Hall. by rewrite collect_all. }
  assert (Hmiss : ∀ pre key post, keys = pre ++ key :: post →
                  Forall (λ k, trimmed r k ≠ "") pre → trimmed r key = "" →
                  collect keys r []
                  = ("", Some ("the header " +:+ key +:+ " must have a value set"))).
  { intros pre key post -> Hpre Hk. by apply collect_missing. }
  split; [done|]. split; [done|]. split.
  - apply collect_none.
  - intros Hf. by rewrite Hall.
Qed.

(** X11. The key does not tell the header values apart: with two headers
    configured, a request whose values are "a-b" and "c" and a request
    whose values are "a" and "b-c" get the same key, and so share one
    count. *)
Theorem extracted_keys_collide h1 h2 r1 r2 a b c :
  a ≠ "" → c ≠ "" →
  trimmed r1 h1 = a +:+ "-" +:+ b → trimmed r1 h2 = c →
  trimmed r2 h1 = a → trimmed r2 h2 = b +:+ "-" +:+ c →
  NewHTTPHeadersExtractor [h1; h2] r1 = (a +:+ "-" +:+ b +:+ "-" +:+ c, None) ∧
  NewHTTPHeadersExtractor [h1; h2] r2 = (a +:+ "-" +:+ b +:+ "-" +:+ c, None).
Proof.
  intros Ha Hc H11 H12 H21 H22.
  unfold NewHTTPHeadersExtractor, Extract. cbn [headers].
  rewrite !collect_all.
  - cbn. rewrite H11, H12, H21, H22. split; rewrite ?string_app_assoc; reflexivity.
  - repeat constructor; rewrite ?H21, ?H22; [done|]. by destruct b.
  - repeat constructor; rewrite ?H11, ?H12; [|done]. by apply string_app_nonempty.
Qed.

End Extractor.

Lemma extracted_keys_collide_witness :
  NewHTTPHeadersExtractor (H := plain) ["X-Tenant"; "X-User"]
    (mkHttpRequest {[ "X-Tenant" := ["acme-eu"]; "X-User" := ["7"] ]})
    = ("acme" +:+ "-" +:+ "eu" +:+ "-" +:+ "7", None) ∧
  NewHTTPHeadersExtractor (H := plain) ["X-Tenant"; "X-User"]
    (mkHttpRequest {[ "X-Tenant" := ["acme"]; "X-User" := ["eu-7"] ]})
    = ("acme" +:+ "-" +:+ "eu" +:+ "-" +:+ "7", None).
Proof.
  apply (extracted_keys_collide (H := plain) "X-Tenant" "X-User"
           (mkHttpRequest {[ "X-Tenant" := ["acme-eu"]; "X-User" := ["7"] ]})
           (mkHttpRequest {[ "X-Tenant" := ["acme"]; "X-User" := ["eu-7"] ]})
           "acme" "eu" "7"); (discriminate || (vm_compute; reflexivity)).
Defined.

(** ** The middleware *)

(** A call returns a Result or an error, never both and never neither. *)
Lemma run_result_or_error st now r w :
  (∃ res, (Run st now r w).1 = ok res) ∨ (∃ what, (Run st now r w).1 = fail what (Key r)).
Proof.
  destruct st as [f | item f]; cbn [Run].
  - pose proof (counter_run_spec now f r w) as S.
    destruct (Counter.Run now f r w) as [out w']. cbn [fst snd] in *.
    inversion S; subst; eauto;
      match goal with
      | |- context [Counter.decide_ ?a ?b ?c ?d] =>
          destruct (decide_counter_cases a b c d) as [[_ ->] | [_ ->]]; eauto
      end.
  - pose proof (sorted_run_spec now item f r w) as S.
    destruct (SortedSet.Run now item f r w) as [out w']. cbn [fst snd] in *.
    inversion S; subst; eauto. unfold mutate_outcome.
    destruct (SortedSet.f_exec f), rr, ra, rc; eauto.
    match goal with
    | |- context [SortedSet.decide_ ?a ?b ?c] =>
        destruct (decide_sorted_cases a b c) as [[_ ->] | [_ ->]]; eauto
    end.
Qed.

(** An admitted request is counted, and within the limit. *)
Lemma allow_total_bounds st now r s res w' :
  fits_int64 (Key r) s →
  Run st now r (fresh s) = (ok res, w') →
  RState res = Allow →
  1 <= TotalRequests res <= Limit r.
Proof.
  intros F HR HA. destruct st as [f | item f]; cbn [Run] in HR.
  - apply Counter_Run_inv in HR. cbn [fresh w_store w_log] in HR.
    inversion HR as [ | | s1 n s2 d Hi Ht Hx Hd Ho | | s1 n s2 rt s3 b Hi Ht Hx Hrt He Ho ];
      subst; apply attempt_ok in Hi; cbn [apply] in Hi;
      destruct (incr_counts _ _ _ _ F Hi) as [_ Hb];
      apply decide_counter_result in Ho as (_ & HT & _ & [[_ Hle] | [HD _]]);
      try congruence; rewrite HT, to_uint64_small in *; lia.
  - apply SortedSet_Run_inv in HR. cbn [fresh w_store w_log] in HR.
    inversion HR as [ s1 c Hp Hc | s1 rp s2 rr s3 ra s4 rc Hp Hc H1 H2 H3 Ho ];
      subst; cbn [w_store fresh] in Hp; [discriminate HA|].
    apply mutate_outcome_result in Ho as (_ & [a ->] & [b ->] & m & -> & Ho).
    pose proof (attempt_read (SortedSet.f_pre f) (SortedSet.precheck now r) s eq_refl)
      as Hs. rewrite Hp in Hs. cbn in Hs. subst s1.
    destruct (batch_ok _ _ _ _ _ _ _ _ _ _ _ H1 H2 H3) as [Hz Hm].
    unfold zcard in Hm. rewrite Hz in Hm.
    pose proof (batch_count_fits (Key r) s item (Go.UnixMilli now) (Incl 0)
                  (Incl (SortedSet.windowStart now r)) F) as Hb.
    apply decide_sorted_result in Ho as (_ & Ht & _ & [[_ Hle] | [HD _]]);
      try congruence. rewrite Ht, to_uint64_small in *; lia.
Qed.

Section Middleware.

Context `{Platform}.

(** The Request the middleware builds for the strategy. *)
Let asked (config : RateLimiterConfig) (request : HttpRequest) : Request :=
  mkRequest (TheExtractor config request).1 (MaxRequests config) (Expiration config).

(** Every path through [ServeHTTP], by what the extractor and the strategy
    return. *)
Lemma serve_cases config now request w :
  let ext := TheExtractor config request in
  let run := Run (TheStrategy config) now (asked config request) w in
  (∃ e, ext.2 = Some e ∧
        ServeHTTP config now request w
        = (Some (writeRespone StatusBadRequest
                   "failed to collect rate limiting key from request: %v" [e]), w)) ∨
  (ext.2 = None ∧ ∃ what,
        run.1 = fail what (Key (asked config request)) ∧
        ServeHTTP config now request w
        = (Some (writeRespone StatusInternalServerError
                   "failed to run rate limiting for request: %v"
                   [ErrorText (StoreError what (Key (asked config request)))]), run.2)) ∨
  (ext.2 = None ∧ ∃ res,
        run.1 = ok res ∧
        ServeHTTP config now request w
        = (Some ([SetHeader rateLimitingTotalRequests (FormatUint (TotalRequests res));
                  SetHeader rateLimitingState (stateStrings (RState res));
                  SetHeader rateLimitingExpiresAt (FormatRFC3339 (ExpiresAt res))]
                 ++ match RState res with
                    | Deny => writeRespone StatusTooManyRequests
                        "you have sent too many requests to this service, slow down please" []
                    | Allow => [Next]
                    end), run.2)).
Proof.
  cbn zeta. unfold ServeHTTP, asked.
  destruct (TheExtractor config request) as [key [e|]]; cbn [fst snd].
  { left. eauto. }
  right. unfold_monad.
  destruct (run_result_or_error (TheStrategy config) now
              (mkRequest key (MaxRequests config) (Expiration config)) w)
    as [[res Hr] | [what Hr]];
    destruct (Run (TheStrategy config) now
                (mkRequest key (MaxRequests config) (Expiration config)) w)
      as [out w']; cbn [fst snd] in *; subst out; cbn.
  - right. split; [done|]. exists res. split; [done|]. by destruct (RState res).
  - left. split; [done|]. exists what. done.
Qed.

Lemma answered_calls (set : list wcall) status msg args :
  Forall (λ c, match c with SetHeader _ _ => True | _ => False end) set →
  ¬ In Next (set ++ writeRespone status msg args) ∧
  statuses (set ++ writeRespone status msg args) = [status].
Proof.
  induction 1 as [|c set Hc _ [IH1 IH2]].
  - split; [|done]. by intros [[=]|[[=]|[[=]|[]]]].
  - destruct c; try done. split; [|done]. by intros [[=]|?].
Qed.

Lemma forwarded_calls (set : list wcall) :
  Forall (λ c, match c with SetHeader _ _ => True | _ => False end) set →
  In Next (set ++ [Next]) ∧ statuses (set ++ [Next]) = [] ∧
  last (set ++ [Next]) = Some Next.
Proof.
  intros Hs. split; [apply in_or_app; right; by left|]. split; [|apply last_snoc].
  induction Hs as [|c set Hc _ IH]; [done|]. by destruct c.
Qed.

Ltac settle :=
  repeat match goal with
         | |- _ ∧ _ => split
         | |- _ ↔ _ => split
         | |- _ → _ => intro
         | H : _ ∧ _ |- _ => destruct H
         | H : ∃ _, _ |- _ => destruct H
         | H : is_Some _ |- _ => destruct H
         end;
  try done; try congruence; eauto.

(** X12. Every request gets exactly one answer, and [ServeHTTP] never
    dereferences a nil Result: either the wrapped handler is called, as
    the last thing and without any status written before, or one status is
    written and the handler is not called.  The handler is called exactly
    when the extractor gives a key and the strategy returns Allow; the
    status is 400 exactly when the extractor fails, and then the store is
    not touched at all; 500 exactly when the strategy returns an error;
    429 exactly when it returns Deny. *)
Theorem every_request_gets_one_answer config now request s :
  let ext := TheExtractor config request in
  let run := Run (TheStrategy config) now (asked config request) (fresh s) in
  ∃ calls,
    (ServeHTTP config now request (fresh s)).1 = Some calls ∧
    (In Next calls ↔ statuses calls = []) ∧
    (In Next calls → last calls = Some Next) ∧
    (In Next calls ↔ ext.2 = None ∧ ∃ res, run.1 = ok res ∧ RState res = Allow) ∧
    (statuses calls = [StatusTooManyRequests]
       ↔ ext.2 = None ∧ ∃ res, run.1 = ok res ∧ RState res = Deny) ∧
    (statuses calls = [StatusInternalServerError] ↔ ext.2 = None ∧ is_Some run.1.2) ∧
    (statuses calls = [StatusBadRequest] ↔ is_Some ext.2) ∧
    (is_Some ext.2 → (ServeHTTP config now request (fresh s)).2 = fresh s).
Proof.
  cbn zeta.
  destruct (serve_cases config now request (fresh s))
    as [(e & He & ->) | [(He & what & Hr & ->) | (He & res & Hr & ->)]];
    cbn [fst snd]; eexists; (split; [reflexivity|]).
  - destruct (answered_calls [] StatusBadRequest
                "failed to collect rate limiting key from request: %v" [e])
      as [Hn Hs]; [constructor|]. cbn [app] in Hn, Hs.
    unfold StatusBadRequest, StatusTooManyRequests, StatusInternalServerError in *.
    rewrite ?He, ?Hr, ?Hs. settle.
  - destruct (answered_calls [] StatusInternalServerError
                "failed to run rate limiting for request: %v"
                [ErrorText (StoreError what (Key (asked config request)))])
      as [Hn Hs]; [constructor|]. cbn [app] in Hn, Hs.
    unfold StatusBadRequest, StatusTooManyRequests, StatusInternalServerError, ok, fail in *.
    rewrite ?He, ?Hr, ?Hs. settle.
  - set (set := [SetHeader rateLimitingTotalRequests (FormatUint (TotalRequests res));
                 SetHeader rateLimitingState (stateStrings (RState res));
                 SetHeader rateLimitingExpiresAt (FormatRFC3339 (ExpiresAt res))]).
    assert (Hset : Forall (λ c, match c with SetHeader _ _ => True | _ => False end) set)
      by (by repeat constructor).
    clearbody set. destruct (RState res) eqn:Est.
    + destruct (answered_calls set StatusTooManyRequests
        "you have sent too many requests to this service, slow down please" [] Hset)
        as [Hn Hs].
      unfold StatusBadRequest, StatusTooManyRequests, StatusInternalServerError, ok, fail in *.
      rewrite ?He, ?Hr, ?Hs. settle.
    + destruct (forwarded_calls set Hset) as (Hn & Hs & Hl).
      unfold StatusBadRequest, StatusTooManyRequests, StatusInternalServerError, ok, fail in *.
      rewrite ?He, ?Hr, ?Hs. settle.
Qed.

End Middleware.

Section Headers.

Context `{Platform}.

Let asked (config : RateLimiterConfig) (request : HttpRequest) : Request :=
  mkRequest (TheExtractor config request).1 (MaxRequests config) (Expiration config).

(** X13. The three rate limiting headers tell the Result to the client on
    every answer that comes from one, 429 as well as the forwarded
    request, with the count in decimal, the state by name and the expiry
    as RFC 3339; an answer to a failure, 400 or 500, carries none of them.
    No header is ever set after the status is written or the wrapped
    handler called, when it would no longer reach the client. *)
Theorem headers_tell_the_result config now request s :
  let ext := TheExtractor config request in
  let run := Run (TheStrategy config) now (asked config request) (fresh s) in
  ∃ calls sets rest,
    (ServeHTTP config now request (fresh s)).1 = Some calls ∧
    calls = sets ++ rest ∧
    Forall (λ c, match c with SetHeader _ _ => True | _ => False end) sets ∧
    Forall (λ c, match c with SetHeader _ _ => False | _ => True end) rest ∧
    (∀ res, ext.2 = None → run.1 = ok res →
       header_set rateLimitingTotalRequests calls = Some (FormatUint (TotalRequests res)) ∧
       header_set rateLimitingState calls = Some (stateStrings (RState res)) ∧
       header_set rateLimitingExpiresAt calls = Some (FormatRFC3339 (ExpiresAt res))) ∧
    (is_Some ext.2 ∨ is_Some run.1.2 →
       header_set rateLimitingTotalRequests calls = None ∧
       header_set rateLimitingState calls = None ∧
       header_set rateLimitingExpiresAt calls = None).
Proof.
  cbn zeta.
  destruct (serve_cases config now request (fresh s))
    as [(e & He & ->) | [(He & what & Hr & ->) | (He & res & Hr & ->)]];
    cbn [fst snd]; fold (asked config request) in *.
  - eexists _, [_], [_; _]. split; [reflexivity|]. split; [reflexivity|].
    split; [by repeat constructor|]. split; [by repeat constructor|].
    rewrite He. split; [by intros ? [=]|]. intros _. by repeat split.
  - eexists _, [_], [_; _]. split; [reflexivity|]. split; [reflexivity|].
    split; [by repeat constructor|]. split; [by repeat constructor|].
    rewrite Hr. split; [by intros ? _ [=]|]. intros _. by repeat split.
  - rewrite He, Hr. destruct (RState res) eqn:Est.
    + eexists _, [_; _; _; _], [_; _]. split; [reflexivity|]. split; [reflexivity|].
      split; [by repeat constructor|]. split; [by repeat constructor|].
      split.
      * intros res' _ [= <-]. rewrite Est. by repeat split.
      * intros [[? [=]] | [? [=]]].
    + eexists _, [_; _; _], [_]. split; [reflexivity|]. split; [reflexivity|].
      split; [by repeat constructor|]. split; [by repeat constructor|].
      split.
      * intros res' _ [= <-]. rewrite Est. by repeat split.
      * intros [[? [=]] | [? [=]]].
Qed.

(** X14. What reaches the wrapped handler is within the limit: whenever
    the handler is called, on a key within the bounds of [fits_int64], the
    count in the Rate-Limiting-Total-Requests header is at least one and
    at most MaxRequests.  With MaxRequests zero no request is ever
    forwarded. *)
Theorem forwarded_requests_are_within_the_limit config now request s calls w' :
  fits_int64 (TheExtractor config request).1 s →
  ServeHTTP config now request (fresh s) = (Some calls, w') →
  In Next calls →
  ∃ n, 1 <= n <= MaxRequests config ∧
       header_set rateLimitingTotalRequests calls = Some (FormatUint n).
Proof.
  intros F HS HN.
  destruct (serve_cases config now request (fresh s))
    as [(e & He & E) | [(He & what & Hr & E) | (He & res & Hr & E)]];
    rewrite E in HS; injection HS as <- <-.
  - by destruct HN as [[=]|[[=]|[[=]|[]]]].
  - by destruct HN as [[=]|[[=]|[[=]|[]]]].
  - destruct (RState res) eqn:Est.
    + exfalso. by destruct HN as [[=]|[[=]|[[=]|[[=]|[[=]|[[=]|[]]]]]]].
    + exists (TotalRequests res). split; [|reflexivity].
      apply (allow_total_bounds (TheStrategy config) now (asked config request) s res
               (Run (TheStrategy config) now (asked config request) (fresh s)).2);
        [done | | done].
      rewrite <- Hr. by destruct (Run _ _ _ _).
Qed.

End Headers.

Lemma forwarded_requests_are_within_the_limit_witness :
  ∃ n, 1 <= n <= 50 ∧
       header_set rateLimitingTotalRequests
         [SetHeader "Rate-Limiting-Total-Requests" "1";
          SetHeader "Rate-Limiting-State" "Allow";
          SetHeader "Rate-Limiting-Expires-At" (pretty (Sample.t0 + Go.Minute));
          Next]
       = Some (FormatUint n).
Proof.
  apply (forwarded_requests_are_within_the_limit (H := plain)
           (limit_by_address (counterStrategy Counter.no_faults) 50) Sample.t0
           (from_address "10.10.10.10") Redis.empty _
           (ServeHTTP (H := plain)
              (limit_by_address (counterStrategy Counter.no_faults) 50) Sample.t0
              (from_address "10.10.10.10") (fresh Redis.empty)).2).
  - vm_compute. exact I.
  - vm_compute. reflexivity.
  - vm_compute. tauto.
Defined.

(** * The fixed window that reads before it counts *)

(** X15. In the read-first fixed window the first request of a client
    leaves a counter that never expires: on a key that is not there the
    TTL reads -2, the EXPIRE that follows finds no key to arm, and the INCR
    creates the counter without a deadline, while the Result says the
    window ends a Duration from now. *)
Theorem read_first_leaves_first_counter_unarmed now r s :
  live (Key r) s = None →
  (GetFirst.Run now GetFirst.no_faults r s).1
    = GetFirst.ok (mkResult (if 1 <=? Limit r then Allow else Deny) 1
                     (Go.Add now (Duration r))) ∧
  live (Key r) (GetFirst.Run now GetFirst.no_faults r s).2
    = Some (mkEntry (VInt 1) None).
Proof.
  intros L. unfold GetFirst.Run, GetFirst.get, attempt. cbn -[Z.eqb ttl expire incr].
  rewrite L. unfold ttl. rewrite L. cbn -[expire incr].
  unfold expire. rewrite L. unfold GetFirst.compare. cbn -[incr].
  unfold GetFirst.increment, attempt. cbn -[incr Z.ltb]. unfold incr. rewrite L.
  change (Go.to_uint64 1) with 1.
  destruct (Z.ltb_spec (Limit r) 1), (Z.leb_spec 1 (Limit r)); try lia;
    cbn [fst snd]; by rewrite live_put_forever.
Qed.

Lemma read_first_leaves_first_counter_unarmed_witness :
  (GetFirst.Run Sample.t0 GetFirst.no_faults Sample.some_user Sample.store0).1
    = GetFirst.ok (mkResult (if 1 <=? 100 then Allow else Deny) 1
                     (Go.Add Sample.t0 Go.Minute)) ∧
  live "some-user" (GetFirst.Run Sample.t0 GetFirst.no_faults Sample.some_user Sample.store0).2
    = Some (mkEntry (VInt 1) None).
Proof.
  apply (read_first_leaves_first_counter_unarmed Sample.t0 Sample.some_user Sample.store0).
  reflexivity.
Defined.

(** X16. The read-first fixed window stops counting at the limit: on a key
    that holds a counter c that is not negative, a fault-free call with a
    positive duration admits the request and leaves c + 1 when c is below
    the limit, and otherwise denies it, reports c and leaves c as it is.
    A counter without a deadline gets one, of the Duration in whole
    seconds; a deadline that is there stays. *)
Theorem read_first_stops_at_the_limit now r s c exp :
  live (Key r) s = Some (mkEntry (VInt c) exp) →
  0 <= c < max_int64 →
  0 < Duration r →
  let run := GetFirst.Run now GetFirst.no_faults r s in
  let deadline := match exp with
                  | Some t => t
                  | None => clock s + formatSec (Duration r) * 1000
                  end in
  (∃ res, run.1 = GetFirst.ok res ∧
          RState res = (if c <? Limit r then Allow else Deny) ∧
          TotalRequests res = (if c <? Limit r then c + 1 else c)) ∧
  live (Key r) run.2
    = Some (mkEntry (VInt (if c <? Limit r then c + 1 else c)) (Some deadline)).
Proof.
  intros L Hc HD run deadline.
  pose proof (formatSec_pos _ HD) as HS.
  assert (Hcmp : ∀ expiresAt s1,
    live (Key r) s1 = Some (mkEntry (VInt c) (Some deadline)) →
    (∃ res, (GetFirst.compare GetFirst.no_faults r (GetFirst.Value c) expiresAt s1).1
              = GetFirst.ok res ∧
            RState res = (if c <? Limit r then Allow else Deny) ∧
            TotalRequests res = (if c <? Limit r then c + 1 else c)) ∧
    live (Key r) (GetFirst.compare GetFirst.no_faults r (GetFirst.Value c) expiresAt s1).2
      = Some (mkEntry (VInt (if c <? Limit r then c + 1 else c)) (Some deadline))).
  { intros expiresAt s1 L1. unfold GetFirst.compare, GetFirst.Uint64.
    destruct (Z.leb_spec 0 c); [|lia].
    destruct (Z.leb_spec (Limit r) c), (Z.ltb_spec c (Limit r)); try lia.
    - cbn. eauto.
    - unfold GetFirst.increment, attempt. cbn -[Z.ltb incr]. unfold incr. rewrite L1.
      destruct (Z.ltb_spec c max_int64); [|lia].
      rewrite to_uint64_small by lia.
      destruct (Z.ltb_spec (Limit r) (c + 1)); [lia|]. cbn [fst snd].
      split; [eauto|]. by apply (live_put_same _ _ _ _ _ L1). }
  subst run. unfold GetFirst.Run, GetFirst.get, attempt. cbn -[Z.eqb ttl expire].
  rewrite L. unfold ttl. rewrite L. cbn [e_exp].
  destruct exp as [t|].
  - pose proof (live_not_expired _ _ _ L) as X. unfold expired in X. cbn in X.
    apply Z.leb_gt in X. pose proof (ttl_nonneg _ _ X) as Hd.
    unfold GetFirst.keyWithoutExpire, GetFirst.keyThatDoesNotExist.
    destruct (Z.eqb_spec ((t - clock s + 500) / 1000 * Go.Second) (-1)); [lia|].
    destruct (Z.eqb_spec ((t - clock s + 500) / 1000 * Go.Second) (-2)); [lia|].
    cbn [orb]. by apply Hcmp.
  - cbn -[expire]. unfold expire. rewrite L.
    destruct (Z.leb_spec (formatSec (Duration r)) 0); [lia|]. cbn [e_val].
    apply Hcmp. rewrite live_put. unfold expired. cbn -[formatSec].
    by destruct (Z.leb_spec (clock s + formatSec (Duration r) * 1000) (clock s)); [lia|].
Qed.

Lemma read_first_stops_at_the_limit_witness :
  let s := put "some-user" (mkEntry (VInt 2) None) Sample.store0 in
  let run := GetFirst.Run Sample.t0 GetFirst.no_faults (Sample.at_most 2) s in
  let deadline := clock s + formatSec Go.Minute * 1000 in
  (∃ res, run.1 = GetFirst.ok res ∧
          RState res = (if 2 <? 2 then Allow else Deny) ∧
          TotalRequests res = (if 2 <? 2 then 2 + 1 else 2)) ∧
  live "some-user" run.2
    = Some (mkEntry (VInt (if 2 <? 2 then 2 + 1 else 2)) (Some deadline)).
Proof.
  apply (read_first_stops_at_the_limit Sample.t0 (Sample.at_most 2)
           (put "some-user" (mkEntry (VInt 2) None) Sample.store0) 2 None).
  - vm_compute. reflexivity.
  - unfold max_int64. lia.
  - reflexivity.
Defined.
